(** * Single-player Pong on raylib: a model of [Pong/main.cpp]

    The program is a frame-driven game: a player paddle on the left, a
    predicting paddle on the right, a ball whose speed grows on paddle
    hits, and a score.  This file embeds the game logic of [main.cpp] as
    executable Rocq functions and proves properties of the trajectory
    predictor, the paddle update, the collision rules, scoring and the
    key resolver.

    Conventions of the embedding.
    - A C++ [float] is represented by an exact rational ([Q]): rounding,
      infinities and NaN are outside the model.  Comparisons of floats
      are the boolean comparisons of [Q]; equality of results is stated
      with [==] where a value is computed and with [=] where a field is
      copied or the arithmetic is on integers written as rationals.
    - A C++ [int] is a [Z]; the scores only ever count up from 0 and
      the model does not bound them.
    - Function-local [static] variables become fields of the game state.
    - What raylib and <cmath> provide and the source only calls
      ([CheckCollisionCircleRec], [std::sqrt], the keyboard, the frame
      clock, [GetRandomValue]) is a parameter of the model: a field of
      the class [External], or a field of the per-frame input.
    - The model has no value for a division by zero, so the functions
      that reach the division of [predictBallY] return an [option].
    - Drawing, text layout and colours are not modelled; the sounds
      played are kept as a log. *)

From Stdlib Require Import ZArith QArith Qround Qabs Lia Lqa List Bool.
Import ListNotations.
Local Open Scope Q_scope.

(** ** Constants of the program *)

Definition screenWidth : Z := 800.
Definition screenHeight : Z := 450.

(** ** Arithmetic on [float] values *)

Definition Qltb (a b : Q) : bool := negb (Qle_bool b a).
Definition Qleb (a b : Q) : bool := Qle_bool a b.
Definition Qeqb (a b : Q) : bool := Qeq_bool a b.

(** Conversion of a float to an integer ([static_cast<int>], or the
    implicit conversion of an assignment): the fraction is dropped. *)
Definition Qtrunc (q : Q) : Z := Z.quot (Qnum q) (Zpos (Qden q)).

(** [fmod] of <cmath>: [a - n * p] where [n] is the quotient [a / p]
    with its fraction dropped, so that the result has the sign of [a]. *)
Definition fmod (a p : Q) : Q := a - inject_Z (Qtrunc (a / p)) * p.

(** [std::fabs] *)
Definition fabs (a : Q) : Q := Qabs a.

(** ** Vectors (raylib's [Vector2] with the operators of the source) *)

Record Vector2 : Set := mkVector2 { x : Q; y : Q }.

Definition vmul (vec : Vector2) (scalar : Q) : Vector2 :=
  mkVector2 (x vec * scalar) (y vec * scalar).
Definition vadd (vec1 vec2 : Vector2) : Vector2 :=
  mkVector2 (x vec1 + x vec2) (y vec1 + y vec2).
Definition vsub (vec1 vec2 : Vector2) : Vector2 :=
  mkVector2 (x vec1 - x vec2) (y vec1 - y vec2).
Definition vdiv (vec : Vector2) (scalar : Q) : Vector2 :=
  mkVector2 (x vec / scalar) (y vec / scalar).

Record Rectangle : Set :=
  mkRectangle { rec_x : Q; rec_y : Q; rec_width : Q; rec_height : Q }.

(** ** Game objects *)

(** [struct GameObject]: the fields that the logic reads or writes. *)
Record GameObject : Set :=
  mkGameObject { position : Vector2; versor : Vector2; speed : Q }.

Definition set_position (o : GameObject) (p : Vector2) : GameObject :=
  mkGameObject p (versor o) (speed o).
Definition set_versor (o : GameObject) (v : Vector2) : GameObject :=
  mkGameObject (position o) v (speed o).
Definition set_speed (o : GameObject) (s : Q) : GameObject :=
  mkGameObject (position o) (versor o) s.

(** [struct Paddle : GameObject] *)
Record Paddle : Set := mkPaddle { paddle_obj :> GameObject; size : Vector2 }.

(** [struct Ball : GameObject] *)
Record Ball : Set := mkBall { ball_obj :> GameObject; radius : Q }.

Definition toRectangle (p : Paddle) : Rectangle :=
  mkRectangle (x (position p)) (y (position p)) (x (size p)) (y (size p)).

Definition getCenter (p : Paddle) : Vector2 :=
  mkVector2 (x (position p) + x (size p) / 2) (y (position p) + y (size p) / 2).

(** ** The trajectory predictor, [Game::predictBallY] *)

Definition predictBallY (ball : Ball) (targetX : Q) : Q :=
  let dx := targetX - x (position ball) in
  let dy := dx * (y (versor ball) / x (versor ball)) in
  let y_raw := y (position ball) + dy in
  let period := inject_Z (2 * screenHeight) in
  let y_mod := fmod y_raw period in
  let y_mod := if Qltb y_mod 0 then y_mod + period else y_mod in
  if Qleb y_mod (inject_Z screenHeight) then y_mod else period - y_mod.

(** The predictor as the specification words it.  The remainder "made
    non-negative" is the residue of [a] modulo [p] in [[0, p)]. *)
Definition Qmod_nonneg (a p : Q) : Q := a - inject_Z (Qfloor (a / p)) * p.

Definition triangle_fold (h a : Q) : Q :=
  let period := 2 * h in
  let value := Qmod_nonneg a period in
  if Qleb value h then value else period - value.

Definition straight_line_y (ball : Ball) (targetX : Q) : Q :=
  y (position ball)
  + (targetX - x (position ball)) * (y (versor ball) / x (versor ball)).

Definition predictBallY_spec (ball : Ball) (targetX : Q) : Q :=
  triangle_fold (inject_Z screenHeight) (straight_line_y ball targetX).

(** The trajectory that the predictor summarises, simulated literally:
    the centre of the ball leaves [(px, py)] along [(vx, vy)], moves in a
    straight line, and at each arrival on a wall ([y = 0] or [y = h]) its
    vertical direction changes sign; the flight ends when the centre is
    on the line [x = targetX].  Each unit of [fuel] pays for one straight
    segment. *)
Fixpoint simulate (fuel : nat) (h px py vx vy targetX : Q) : option Q :=
  match fuel with
  | O => None
  | S fuel' =>
      let t_target := (targetX - px) / vx in
      if Qeqb vy 0 then Some py
      else
        let wall := if Qltb 0 vy then h else 0 in
        let t_wall := (wall - py) / vy in
        if Qleb t_target t_wall then Some (py + vy * t_target)
        else simulate fuel' h (px + vx * t_wall) wall vx (- vy) targetX
  end.

(** The length of the unfolded vertical path that is still ahead of the
    ball after the time [t], counted from the wall behind the ball, and a
    number of segments that covers it. *)
Definition path_ahead (h py vy t : Q) : Q :=
  if Qltb 0 vy then py + vy * t else (h - py) + (- vy) * t.

Definition enough_fuel (h py vy t : Q) : nat :=
  S (Z.to_nat (Qceiling (path_ahead h py vy t / h))).

Definition simulate_ball (fuel : nat) (ball : Ball) (targetX : Q) : option Q :=
  simulate fuel (inject_Z screenHeight)
    (x (position ball)) (y (position ball))
    (x (versor ball)) (y (versor ball)) targetX.

(** The model has no value for a division by zero: the predictor as the
    game calls it is undefined when the ball has no horizontal motion. *)
Definition predictBallY_checked (ball : Ball) (targetX : Q) : option Q :=
  if Qeqb (x (versor ball)) 0 then None else Some (predictBallY ball targetX).

(** ** What the program takes from raylib and <cmath> *)

Class External : Type := {
  CheckCollisionCircleRec : Vector2 -> Q -> Rectangle -> bool;
  sqrt : Q -> Q
}.

(** Key codes of raylib.h. *)
Definition KEY_UP : Z := 265.
Definition KEY_DOWN : Z := 264.

(** [enum VersorDirection] *)
Definition UP : Z := -1.
Definition DOWN : Z := 1.
Definition LEFT : Z := -1.
Definition RIGHT : Z := 1.
Definition NONE : Z := 0.

(** [enum AudioManager::SoundEffectID] *)
Definition PlayerPaddleHit : Z := 0.
Definition AIPaddleHit : Z := 1.
Definition ScorePoint : Z := 2.

Section Objects.
Context {E : External}.

Definition normaliseVersor (vec : Vector2) : Vector2 :=
  let len := sqrt (x vec * x vec + y vec * y vec) in
  if Qeqb len 0 then mkVector2 0 0
  else mkVector2 (x vec / len) (y vec / len).

(** [GameObject::update], the one the ball uses. *)
Definition GameObject_update (o : GameObject) (deltaTime : Q) : GameObject :=
  set_position o
    (vadd (position o) (vmul (vmul (normaliseVersor (versor o)) (speed o)) deltaTime)).

Definition pointTowards (o : GameObject) (target : Vector2) : GameObject :=
  let direction := vsub target (position o) in
  set_versor o (normaliseVersor direction).

(** [Paddle::update] *)
Definition Paddle_update (p : Paddle) (deltaTime : Q) : Paddle :=
  let delta := vmul (vmul (normaliseVersor (versor p)) (speed p)) deltaTime in
  let newPosition := vadd (position p) delta in
  let py :=
    if Qleb 0 (y newPosition)
       && Qleb (y newPosition + y (size p)) (inject_Z screenHeight)
    then y newPosition else y (position p) in
  let px :=
    if Qleb 0 (x newPosition)
       && Qleb (x newPosition + x (size p)) (inject_Z screenWidth)
    then x newPosition else x (position p) in
  mkPaddle (set_position p (mkVector2 px py)) (size p).

Definition Ball_update (b : Ball) (deltaTime : Q) : Ball :=
  mkBall (GameObject_update b deltaTime) (radius b).
End Objects.

(** The paddle rectangle lies in the screen. *)
Definition paddle_in_screen (p : Paddle) : Prop :=
  0 <= x (position p) /\ x (position p) + x (size p) <= inject_Z screenWidth /\
  0 <= y (position p) /\ y (position p) + y (size p) <= inject_Z screenHeight.

(** ** Score *)

Record ScoreText : Set := mkScoreText { scoreLeft : Z; scoreRight : Z }.

Definition incrementScore (s : ScoreText) (isLeft : bool) : ScoreText :=
  if isLeft then mkScoreText (scoreLeft s + 1) (scoreRight s)
  else mkScoreText (scoreLeft s) (scoreRight s + 1).

Definition resetScore (s : ScoreText) : ScoreText := mkScoreText 0 0.

(** ** The game *)

(** The two [static] variables of [handleAIPaddleMovement].  They are
    initialised when control first passes their declarations, which is
    the first call of the function. *)
Record AIStatics : Set := mkAIStatics {
  ai_initialised : bool;
  predictedY : Q;
  lastFrameBallDirX : Z
}.

(** [struct Game], with the [static] locals of its member functions:
    [activeKey] of [getCurrentVerticalKey], the two of
    [handleAIPaddleMovement] and [currentSpeedRecord] of
    [getSpeedRecord].  [soundLog] lists the identifiers handed to
    [PlaySound], latest first. *)
Record Game : Set := mkGame {
  leftPaddle : Paddle;
  rightPaddle : Paddle;
  ball : Ball;
  scoreText : ScoreText;
  activeKey : Z;
  aiStatics : AIStatics;
  currentSpeedRecord : Z;
  soundLog : list Z
}.

Definition set_leftPaddle (g : Game) (p : Paddle) : Game :=
  mkGame p (rightPaddle g) (ball g) (scoreText g) (activeKey g)
         (aiStatics g) (currentSpeedRecord g) (soundLog g).
Definition set_rightPaddle (g : Game) (p : Paddle) : Game :=
  mkGame (leftPaddle g) p (ball g) (scoreText g) (activeKey g)
         (aiStatics g) (currentSpeedRecord g) (soundLog g).
Definition set_ball (g : Game) (b : Ball) : Game :=
  mkGame (leftPaddle g) (rightPaddle g) b (scoreText g) (activeKey g)
         (aiStatics g) (currentSpeedRecord g) (soundLog g).
Definition set_scoreText (g : Game) (s : ScoreText) : Game :=
  mkGame (leftPaddle g) (rightPaddle g) (ball g) s (activeKey g)
         (aiStatics g) (currentSpeedRecord g) (soundLog g).
Definition set_activeKey (g : Game) (k : Z) : Game :=
  mkGame (leftPaddle g) (rightPaddle g) (ball g) (scoreText g) k
         (aiStatics g) (currentSpeedRecord g) (soundLog g).
Definition set_aiStatics (g : Game) (a : AIStatics) : Game :=
  mkGame (leftPaddle g) (rightPaddle g) (ball g) (scoreText g) (activeKey g)
         a (currentSpeedRecord g) (soundLog g).
Definition set_currentSpeedRecord (g : Game) (r : Z) : Game :=
  mkGame (leftPaddle g) (rightPaddle g) (ball g) (scoreText g) (activeKey g)
         (aiStatics g) r (soundLog g).
Definition set_soundLog (g : Game) (l : list Z) : Game :=
  mkGame (leftPaddle g) (rightPaddle g) (ball g) (scoreText g) (activeKey g)
         (aiStatics g) (currentSpeedRecord g) l.

(** What one frame reads from outside: the keyboard, the frame clock, and
    the values that the calls of [GetRandomValue] return, one field per
    call site that the frame can pass. *)
Record FrameInput : Set := mkFrameInput {
  upPressed : bool;        (* IsKeyDown(KEY_UP) *)
  downPressed : bool;      (* IsKeyDown(KEY_DOWN) *)
  restartPressed : bool;   (* IsKeyPressed(KEY_R) *)
  deltaTime : Q;           (* GetFrameTime() *)
  rndRestart : Z;          (* GetRandomValue(-1000, 1000) in resetGame *)
  rndSound : Z;            (* GetRandomValue(0, 1) in handlePointScoring *)
  rndServe : Z             (* GetRandomValue(-1000, 1000) in resetRound *)
}.

(** [GetRandomValue(lo, hi)] returns a value between its bounds. *)
Definition in_range (lo hi r : Z) : Prop := (lo <= r <= hi)%Z.

(** [AudioManager::playSoundEffect]; [hitSounds] has four entries once
    [loadSoundEffects] has run. *)
Definition playSoundEffect (g : Game) (id : Z) : Game :=
  if (0 <=? id)%Z && (id <? 4)%Z then set_soundLog g (id :: soundLog g)
  else g.

(** [Game::getCurrentVerticalKey]: the value returned and the new value
    of its [static activeKey]. *)
Definition getCurrentVerticalKey (activeKey0 : Z) (up down : bool) : Z * Z :=
  if negb up && negb down then ((-1)%Z, (-1)%Z)
  else if xorb up down then
    let k := if up then KEY_UP else KEY_DOWN in (k, k)
  else if up && down then
    ((if (activeKey0 =? KEY_UP)%Z then KEY_DOWN else KEY_UP), activeKey0)
  else (activeKey0, activeKey0).

(** The resolver over a sequence of frames, oldest first: the values it
    returns and the last value of [activeKey]. *)
Fixpoint resolve_frames (activeKey0 : Z) (frames : list (bool * bool))
  : list Z * Z :=
  match frames with
  | [] => ([], activeKey0)
  | (up, down) :: rest =>
      let '(k, a) := getCurrentVerticalKey activeKey0 up down in
      let '(ks, a') := resolve_frames a rest in
      (k :: ks, a')
  end.

(** For how many of the latest frames a key has been held without a
    break; [history] has the latest frame first. *)
Fixpoint held_for (key : bool * bool -> bool) (history : list (bool * bool))
  : nat :=
  match history with
  | [] => O
  | f :: older => if key f then S (held_for key older) else O
  end.

(** [Game::randomValidVersor], on the value drawn. *)
Definition randomValidVersor (drawn : Z) : Q :=
  let versor := inject_Z drawn / 1000 in
  if Qeqb versor 0 then -1 else versor.

(** [Game::getSpeedRecord] and its [static currentSpeedRecord]. *)
Definition getSpeedRecord (g : Game) (resetRecord : bool) : Game :=
  if resetRecord then set_currentSpeedRecord g 0%Z
  else if Qltb (inject_Z (currentSpeedRecord g)) (speed (ball g))
       then set_currentSpeedRecord g (Qtrunc (speed (ball g)))
       else g.

Definition obind {A B : Type} (c : option A) (k : A -> option B) : option B :=
  match c with
  | Some a => k a
  | None => None
  end.

Notation "'do' a <- c ; k" := (obind c (fun a => k))
  (at level 10, a name, c at level 100, k at level 200).

Section GameLogic.
Context {E : External}.

(** The expression [predictBallY(rightPaddle.position.x +
    rightPaddle.size.x / 2.0f) - rightPaddle.size.y / 2.0f], which
    [handleAIPaddleMovement] evaluates at three places. *)
Definition aiPrediction (g : Game) : option Q :=
  do p <- predictBallY_checked (ball g)
            (x (position (rightPaddle g)) + x (size (rightPaddle g)) / 2);
  Some (p - y (size (rightPaddle g)) / 2).

(** [Game::handleAIPaddleMovement] *)
Definition handleAIPaddleMovement (g : Game) (resetFunction : bool)
  : option Game :=
  do st <- (if ai_initialised (aiStatics g) then Some (aiStatics g)
            else do p <- aiPrediction g; Some (mkAIStatics true p LEFT));
  let vx := x (versor (ball g)) in
  if resetFunction then
    do p <- aiPrediction g;
    Some (set_aiStatics g (mkAIStatics true p (Qtrunc vx)))
  else
    do p <- (if (lastFrameBallDirX st =? LEFT)%Z && Qeqb vx (inject_Z RIGHT)
             then aiPrediction g else Some (predictedY st));
    let rp := rightPaddle g in
    let target :=
      if Qeqb vx (inject_Z LEFT)
      then mkVector2 (x (position rp))
                     (inject_Z screenHeight / 2 - y (size rp) / 2)
      else mkVector2 (x (position rp)) p in
    let last := if negb (Qeqb vx (inject_Z LEFT)) then RIGHT else LEFT in
    Some (set_aiStatics
            (set_rightPaddle g (mkPaddle (pointTowards rp target) (size rp)))
            (mkAIStatics true p last)).

(** The serve: the ball as [init], [resetRound] and [resetGame] leave it. *)
Definition serve (b : Ball) (drawn : Z) : Ball :=
  mkBall (mkGameObject
            (mkVector2 (inject_Z screenWidth / 2) (inject_Z screenHeight / 2))
            (mkVector2 (inject_Z RIGHT) (randomValidVersor drawn))
            400)
         (radius b).

(** [Game::resetRound] *)
Definition resetRound (g : Game) (drawn : Z) : option Game :=
  handleAIPaddleMovement (set_ball g (serve (ball g) drawn)) true.

(** [Game::resetGame] *)
Definition resetGame (g : Game) (drawn : Z) : option Game :=
  let lp := leftPaddle g in
  let rp := rightPaddle g in
  let g := set_leftPaddle g
             (mkPaddle (set_position lp
                          (mkVector2 50 (inject_Z screenHeight / 2 - 50)))
                       (size lp)) in
  let g := set_rightPaddle g
             (mkPaddle (set_position rp
                          (mkVector2 (inject_Z screenWidth - 50)
                                     (inject_Z screenHeight / 2 - 50)))
                       (size rp)) in
  let g := set_ball g (serve (ball g) drawn) in
  let g := set_scoreText g (resetScore (scoreText g)) in
  let g := getSpeedRecord g true in
  handleAIPaddleMovement g true.

(** The ball after a hit on [paddle]. *)
Definition bounce_off (b : Ball) (paddle : Paddle) : Ball :=
  let vx := x (versor b) * -1 in
  let paddleCenter := getCenter paddle in
  let vy := (y (position b) - y paddleCenter) / (y (size paddle) / 2) in
  let s := speed b + 20 * (speed b / 400) * fabs vy in
  mkBall (mkGameObject (position b) (mkVector2 vx vy) s) (radius b).

(** [Game::handlePaddleBallCollision]; [isLeft] tells which of the two
    paddles the reference designates. *)
Definition handlePaddleBallCollision (g : Game) (isLeft : bool) : Game :=
  let paddle := if isLeft then leftPaddle g else rightPaddle g in
  let b := ball g in
  if CheckCollisionCircleRec (position b) (radius b) (toRectangle paddle) then
    playSoundEffect (set_ball g (bounce_off b paddle))
                    (if isLeft then PlayerPaddleHit else AIPaddleHit)
  else g.

(** [Game::handleWallBallCollision] *)
Definition handleWallBallCollision (g : Game) : Game :=
  let b := ball g in
  if Qleb (y (position b) - radius b) 0
     || Qleb (inject_Z screenHeight) (y (position b) + radius b)
  then
    set_ball g
      (mkBall (set_versor b (mkVector2 (x (versor b)) (y (versor b) * -1)))
              (radius b))
  else g.

(** [Game::handlePointScoring] *)
Definition handlePointScoring (g : Game) (drawnSound drawnServe : Z)
  : option Game :=
  let b := ball g in
  if Qleb (inject_Z screenWidth) (x (position b) + radius b) then
    let g := set_scoreText g (incrementScore (scoreText g) true) in
    let g := playSoundEffect g (ScorePoint + drawnSound)%Z in
    resetRound g drawnServe
  else if Qleb (x (position b) - radius b) 0 then
    let g := set_scoreText g (incrementScore (scoreText g) false) in
    let g := playSoundEffect g (ScorePoint + drawnSound)%Z in
    resetRound g drawnServe
  else Some g.

(** [Game::init]; [Game]'s constructor leaves the statics as their
    declarations would have them before the first call. *)
Definition init (drawn : Z) : Game :=
  let leftPaddle :=
    mkPaddle (mkGameObject (mkVector2 50 (inject_Z screenHeight / 2 - 50))
                           (mkVector2 (inject_Z NONE) (inject_Z NONE)) 300)
             (mkVector2 10 100) in
  let rightPaddle :=
    mkPaddle (mkGameObject (mkVector2 (inject_Z screenWidth - 50)
                                      (inject_Z screenHeight / 2 - 50))
                           (mkVector2 (inject_Z NONE) (inject_Z NONE)) 300)
             (mkVector2 10 100) in
  let ball := serve (mkBall (mkGameObject (mkVector2 0 0) (mkVector2 0 0) 0) 7)
                    drawn in
  mkGame leftPaddle rightPaddle ball (mkScoreText 0 0) (-1)%Z
         (mkAIStatics false 0 LEFT) 0%Z [].

(** [Game::readInput] *)
Definition readInput (g : Game) (i : FrameInput) : option Game :=
  let '(key, active) :=
    getCurrentVerticalKey (activeKey g) (upPressed i) (downPressed i) in
  let g := set_activeKey g active in
  let lp := leftPaddle g in
  let v :=
    if (key =? KEY_UP)%Z then mkVector2 (x (versor lp)) (inject_Z UP)
    else if (key =? KEY_DOWN)%Z then mkVector2 (x (versor lp)) (inject_Z DOWN)
    else mkVector2 (inject_Z NONE) (inject_Z NONE) in
  let g := set_leftPaddle g (mkPaddle (set_versor lp v) (size lp)) in
  if restartPressed i then resetGame g (rndRestart i) else Some g.

(** [Game::update] *)
Definition update (g : Game) (i : FrameInput) : option Game :=
  let g := handlePaddleBallCollision g true in
  let g := handlePaddleBallCollision g false in
  let g := handleWallBallCollision g in
  do g <- handlePointScoring g (rndSound i) (rndServe i);
  do g <- handleAIPaddleMovement g false;
  let g := set_leftPaddle g (Paddle_update (leftPaddle g) (deltaTime i)) in
  let g := set_rightPaddle g (Paddle_update (rightPaddle g) (deltaTime i)) in
  let g := set_ball g (Ball_update (ball g) (deltaTime i)) in
  Some (getSpeedRecord g false).

(** One turn of the loop of [main]. *)
Definition frame (g : Game) (i : FrameInput) : option Game :=
  do g <- readInput g i; update g i.

(** The states of the game: the one [init] builds, for any value drawn,
    and those that frames lead to, for any input. *)
Inductive reachable : Game -> Prop :=
| reachable_init : forall drawn, reachable (init drawn)
| reachable_frame : forall g i g',
    reachable g -> frame g i = Some g' -> reachable g'.

(** The horizontal direction is a unit and the speed is not below the
    base speed. *)
Definition ball_invariant (b : Ball) : Prop :=
  (x (versor b) = 1 \/ x (versor b) = -1) /\ 400 <= speed b.

(** The state in which [update] tests the side edges. *)
Definition after_collisions (g : Game) : Game :=
  handleWallBallCollision
    (handlePaddleBallCollision (handlePaddleBallCollision g true) false).

(** Whether the ball of [g] is over a side edge, as [handlePointScoring]
    tests it. *)
Definition over_side_edge (g : Game) : bool :=
  Qleb (inject_Z screenWidth) (x (position (ball g)) + radius (ball g))
  || Qleb (x (position (ball g)) - radius (ball g)) 0.

End GameLogic.

(** ** An instance of the external functions, for evaluating the model *)

(** [CheckCollisionCircleRec] as raylib's rshapes.c computes it. *)
Definition raylib_CheckCollisionCircleRec
  (center : Vector2) (radius : Q) (rec : Rectangle) : bool :=
  let recCenterX := rec_x rec + rec_width rec / 2 in
  let recCenterY := rec_y rec + rec_height rec / 2 in
  let dx := fabs (x center - recCenterX) in
  let dy := fabs (y center - recCenterY) in
  if Qltb (rec_width rec / 2 + radius) dx then false
  else if Qltb (rec_height rec / 2 + radius) dy then false
  else if Qleb dx (rec_width rec / 2) then true
  else if Qleb dy (rec_height rec / 2) then true
  else
    let cornerDistanceSq :=
      (dx - rec_width rec / 2) * (dx - rec_width rec / 2)
      + (dy - rec_height rec / 2) * (dy - rec_height rec / 2) in
    Qleb cornerDistanceSq (radius * radius).

(** A square root on rationals: exact on the squares of rationals, below
    the root elsewhere. *)
Definition sqrt_below (a : Q) : Q :=
  inject_Z (Z.sqrt (Qnum a * Zpos (Qden a))) / inject_Z (Zpos (Qden a)).

#[export] Instance raylib_instance : External := {|
  CheckCollisionCircleRec := raylib_CheckCollisionCircleRec;
  sqrt := sqrt_below
|}.

(** A frame with no key held and no draw that matters. *)
Definition idle_frame (dt : Q) : FrameInput :=
  mkFrameInput false false false dt 0 0 0.

(** ** Objects and predicates used in the statements *)

(** The ball with its direction multiplied by [k]. *)
Definition scale_versor (b : Ball) (k : Q) : Ball :=
  mkBall (set_versor b (vmul (versor b) k)) (radius b).

(** The ball seen in the mirror that exchanges the two walls. *)
Definition mirror_ball (b : Ball) : Ball :=
  mkBall (mkGameObject
            (mkVector2 (x (position b)) (inject_Z screenHeight - y (position b)))
            (mkVector2 (x (versor b)) (- y (versor b)))
            (speed b))
         (radius b).

(** The square of the length of a vector, as [normaliseVersor] forms it. *)
Definition length_sq (vec : Vector2) : Q := x vec * x vec + y vec * y vec.

(** The ball touches the upper or the lower wall, as
    [handleWallBallCollision] tests it. *)
Definition at_wall (b : Ball) : bool :=
  Qleb (y (position b) - radius b) 0
  || Qleb (inject_Z screenHeight) (y (position b) + radius b).

(** What holds of the paddles, the ball and the score in every state of
    the game. *)
Definition game_invariant (g : Game) : Prop :=
  radius (ball g) = 7 /\
  size (leftPaddle g) = mkVector2 10 100 /\
  size (rightPaddle g) = mkVector2 10 100 /\
  x (position (leftPaddle g)) == 50 /\
  x (position (rightPaddle g)) == 750 /\
  paddle_in_screen (leftPaddle g) /\ paddle_in_screen (rightPaddle g) /\
  x (versor (leftPaddle g)) = 0 /\
  (0 <= scoreLeft (scoreText g))%Z /\ (0 <= scoreRight (scoreText g))%Z.

(** Once the statics of the steering are initialised, the ordinate kept
    for the upper edge of the right paddle is a prediction less half the
    height of the paddle. *)
Definition ai_invariant (g : Game) : Prop :=
  ai_initialised (aiStatics g) = true ->
  -50 <= predictedY (aiStatics g) /\ predictedY (aiStatics g) <= 400.

(** The test of [handleAIPaddleMovement] for a ball that has turned from
    the left to the right since the last frame. *)
Definition turned_right (g : Game) : bool :=
  (lastFrameBallDirX (aiStatics g) =? LEFT)%Z
  && Qeqb (x (versor (ball g))) (inject_Z RIGHT).


(** ** Sample data *)

(** A flight with two bounces: up to the wall at x = 475, down to the
    other at x = 625, and up again to 375 on the line x = 750. *)
Definition steep_ball : Ball :=
  mkBall (mkGameObject (mkVector2 400 225) (mkVector2 1 3) 400) 7.

(** A paddle whose lower edge is below the screen. *)
Definition stray_paddle : Paddle :=
  mkPaddle (mkGameObject (mkVector2 50 400) (mkVector2 0 (-1)) 300)
           (mkVector2 10 100).

(** A paddle in the screen, close to the upper edge and moving up. *)
Definition high_paddle : Paddle :=
  mkPaddle (mkGameObject (mkVector2 50 2) (mkVector2 0 (-1)) 300)
           (mkVector2 10 100).

(** The game just after [init], with the ball moved onto the left paddle. *)
Definition hit_state : Game :=
  let g := init 250 in
  set_ball g (mkBall (set_position (set_versor (ball g) (mkVector2 (-1) 0.25))
                                   (mkVector2 62 200))
                     (radius (ball g))).

(** The same with the ball over the right edge, and over the left one. *)
Definition right_edge_state : Game :=
  let g := init 250 in
  set_ball g (mkBall (set_position (ball g) (mkVector2 795 100)) (radius (ball g))).

Definition left_edge_state : Game :=
  let g := init 250 in
  set_ball g (mkBall (set_position (ball g) (mkVector2 5 100)) (radius (ball g))).

(** A vector of length 5, and a ball that flies along it. *)
Definition three_four : Vector2 := mkVector2 3 4.

Definition flying_ball : Ball :=
  mkBall (mkGameObject (mkVector2 100 100) three_four 400) 7.

(** A frame with the up key held. *)
Definition up_frame (dt : Q) : FrameInput :=
  mkFrameInput true false false dt 0 0 0.

(** * Properties *)

(** Arithmetic stays folded when records are simplified. *)
#[local] Arguments Qabs : simpl never.
#[local] Arguments Qplus : simpl never.
#[local] Arguments Qminus : simpl never.
#[local] Arguments Qmult : simpl never.
#[local] Arguments Qdiv : simpl never.
#[local] Arguments Qopp : simpl never.
#[local] Arguments Qinv : simpl never.
#[local] Arguments inject_Z : simpl never.

(** ** Comparisons *)

Lemma Qleb_true (a b : Q) : Qleb a b = true <-> a <= b.
Proof. apply Qle_bool_iff. Qed.

Lemma Qleb_false (a b : Q) : Qleb a b = false <-> b < a.
Proof.
  unfold Qleb. split; intro H.
  - apply Qnot_le_lt. intro L. apply Qle_bool_iff in L. congruence.
  - destruct (Qle_bool a b) eqn:Hb; [|reflexivity].
    apply Qle_bool_iff in Hb. lra.
Qed.

Lemma Qltb_true (a b : Q) : Qltb a b = true <-> a < b.
Proof.
  unfold Qltb. rewrite negb_true_iff. apply (Qleb_false b a).
Qed.

Lemma Qltb_false (a b : Q) : Qltb a b = false <-> b <= a.
Proof.
  unfold Qltb. rewrite negb_false_iff. apply (Qleb_true b a).
Qed.

Lemma Qeqb_true (a b : Q) : Qeqb a b = true <-> a == b.
Proof. apply Qeq_bool_iff. Qed.

Lemma Qeqb_false (a b : Q) : Qeqb a b = false <-> ~ a == b.
Proof.
  unfold Qeqb. split; intro H.
  - intro Heq. apply Qeq_bool_iff in Heq. congruence.
  - destruct (Qeq_bool a b) eqn:Hb; [|reflexivity].
    apply Qeq_bool_iff in Hb. contradiction.
Qed.

(** Case analysis on a comparison, with the fact it decides. *)
Ltac case_cmp c :=
  let Hc := fresh "Hc" in
  destruct c eqn:Hc;
  [ first [ apply Qleb_true in Hc | apply Qltb_true in Hc | apply Qeqb_true in Hc ]
  | first [ apply Qleb_false in Hc | apply Qltb_false in Hc | apply Qeqb_false in Hc ] ].

(** ** Truncation, [fmod] and the non-negative residue *)

Lemma Qfloor_unique (q : Q) (z : Z) :
  inject_Z z <= q -> q < inject_Z (z + 1) -> Qfloor q = z.
Proof.
  intros Hlo Hhi.
  pose proof (Qfloor_le q) as Hf1.
  pose proof (Qlt_floor q) as Hf2.
  assert (L1 : (z < Qfloor q + 1)%Z).
  { rewrite Zlt_Qlt. eapply Qle_lt_trans; eassumption. }
  assert (L2 : (Qfloor q < z + 1)%Z).
  { rewrite Zlt_Qlt. eapply Qle_lt_trans; eassumption. }
  lia.
Qed.

Lemma Qtrunc_nonneg (q : Q) : 0 <= q -> Qtrunc q = Qfloor q.
Proof.
  destruct q as [n d]. unfold Qle, Qtrunc, Qfloor. simpl. intro H.
  apply Z.quot_div_nonneg; lia.
Qed.

Lemma Qtrunc_nonpos (q : Q) : q <= 0 -> Qtrunc q = Qceiling q.
Proof.
  destruct q as [n d]. unfold Qle, Qtrunc, Qceiling, Qfloor. simpl. intro H.
  rewrite <- (Z.quot_div_nonneg (- n) (Zpos d)) by lia.
  rewrite Z.quot_opp_l by lia. lia.
Qed.

Lemma Qtrunc_bounds_nonneg (q : Q) :
  0 <= q -> inject_Z (Qtrunc q) <= q /\ q < inject_Z (Qtrunc q) + 1.
Proof.
  intro H. rewrite (Qtrunc_nonneg q H). split.
  - apply Qfloor_le.
  - pose proof (Qlt_floor q) as L. rewrite inject_Z_plus in L. exact L.
Qed.

Lemma Qtrunc_bounds_nonpos (q : Q) :
  q <= 0 -> inject_Z (Qtrunc q) - 1 < q /\ q <= inject_Z (Qtrunc q).
Proof.
  intro H. rewrite (Qtrunc_nonpos q H). split.
  - pose proof (Qceiling_lt q) as L.
    unfold Z.sub in L. rewrite inject_Z_plus in L. exact L.
  - apply Qle_ceiling.
Qed.

Section Residue.
Variables a p : Q.
Hypothesis p_pos : 0 < p.

Lemma quotient_times : a / p * p == a.
Proof. field. lra. Qed.

Lemma Qmod_nonneg_bounds : 0 <= Qmod_nonneg a p /\ Qmod_nonneg a p < p.
Proof.
  unfold Qmod_nonneg.
  pose proof (Qfloor_le (a / p)) as L1.
  pose proof (Qlt_floor (a / p)) as L2. rewrite inject_Z_plus in L2.
  pose proof quotient_times as Hq.
  set (q := a / p) in *. set (f := inject_Z (Qfloor q)) in *.
  change (inject_Z 1) with 1 in L2.
  split; nra.
Qed.

Lemma Qmod_nonneg_unique (k : Z) (m : Q) :
  a == inject_Z k * p + m -> 0 <= m -> m < p -> Qmod_nonneg a p == m.
Proof.
  intros Ha Hm0 Hmp. unfold Qmod_nonneg.
  assert (Hq : a / p == inject_Z k + m / p).
  { rewrite Ha. field. lra. }
  assert (Hmp0 : 0 <= m / p).
  { apply Qle_shift_div_l; lra. }
  assert (Hmp1 : m / p < 1).
  { apply Qlt_shift_div_r; lra. }
  rewrite (Qfloor_unique (a / p) k).
  - lra.
  - lra.
  - rewrite inject_Z_plus. change (inject_Z 1) with 1. lra.
Qed.

Lemma fmod_bounds : - p < fmod a p /\ fmod a p < p.
Proof.
  unfold fmod. pose proof quotient_times as Hq.
  destruct (Qlt_le_dec (a / p) 0) as [Hneg | Hpos].
  - destruct (Qtrunc_bounds_nonpos (a / p)) as [L1 L2]; [lra|].
    set (q := a / p) in *. set (t := inject_Z (Qtrunc q)) in *.
    split; nra.
  - destruct (Qtrunc_bounds_nonneg (a / p) Hpos) as [L1 L2].
    set (q := a / p) in *. set (t := inject_Z (Qtrunc q)) in *.
    split; nra.
Qed.

(** What the predictor does with [fmod] is the non-negative residue. *)
Lemma fmod_made_nonneg :
  (if Qltb (fmod a p) 0 then fmod a p + p else fmod a p) == Qmod_nonneg a p.
Proof.
  pose proof quotient_times as Hq.
  destruct (Qlt_le_dec (a / p) 0) as [Hneg | Hpos].
  - destruct (Qtrunc_bounds_nonpos (a / p)) as [L1 L2]; [lra|].
    case_cmp (Qltb (fmod a p) 0).
    + symmetry. apply (Qmod_nonneg_unique (Qtrunc (a / p) - 1)).
      * unfold fmod. unfold Z.sub. rewrite inject_Z_plus, inject_Z_opp.
        change (inject_Z 1) with 1. ring.
      * destruct fmod_bounds. lra.
      * lra.
    + symmetry. apply (Qmod_nonneg_unique (Qtrunc (a / p))).
      * unfold fmod. ring.
      * exact Hc.
      * destruct fmod_bounds. lra.
  - assert (H0 : 0 <= fmod a p).
    { unfold fmod. destruct (Qtrunc_bounds_nonneg (a / p) Hpos) as [L1 L2].
      set (q := a / p) in *. set (t := inject_Z (Qtrunc q)) in *. nra. }
    case_cmp (Qltb (fmod a p) 0); [lra|].
    unfold fmod, Qmod_nonneg. rewrite (Qtrunc_nonneg _ Hpos). reflexivity.
Qed.

End Residue.

#[export] Instance Qmod_nonneg_compat :
  Proper (Qeq ==> Qeq ==> Qeq) Qmod_nonneg.
Proof.
  intros a a' Ha p p' Hp. unfold Qmod_nonneg.
  assert (Hf : Qfloor (a / p) = Qfloor (a' / p')).
  { apply Qfloor_comp. rewrite Ha, Hp. reflexivity. }
  rewrite Hf, Ha, Hp. reflexivity.
Qed.

(** ** The triangle wave *)

Section TriangleWave.
Variable h : Q.
Hypothesis h_pos : 0 < h.

Lemma triangle_fold_compat (a b : Q) :
  a == b -> triangle_fold h a == triangle_fold h b.
Proof.
  intro Hab. unfold triangle_fold.
  assert (Hm : Qmod_nonneg a (2 * h) == Qmod_nonneg b (2 * h))
    by (rewrite Hab; reflexivity).
  case_cmp (Qleb (Qmod_nonneg a (2 * h)) h);
    case_cmp (Qleb (Qmod_nonneg b (2 * h)) h); lra.
Qed.

Lemma triangle_fold_range (a : Q) :
  0 <= triangle_fold h a /\ triangle_fold h a <= h.
Proof.
  unfold triangle_fold.
  destruct (Qmod_nonneg_bounds a (2 * h)) as [L1 L2]; [lra|].
  case_cmp (Qleb (Qmod_nonneg a (2 * h)) h); lra.
Qed.

(** The wave has the value [w] at [2 k h + w] and at [2 k h - w]. *)
Lemma triangle_fold_at (a : Q) (k : Z) (w : Q) :
  0 <= w -> w <= h ->
  a == inject_Z k * (2 * h) + w \/ a == inject_Z k * (2 * h) - w ->
  triangle_fold h a == w.
Proof.
  intros Hw0 Hwh Ha. unfold triangle_fold.
  assert (Hplus : forall k', a == inject_Z k' * (2 * h) + w ->
            (if Qleb (Qmod_nonneg a (2 * h)) h
             then Qmod_nonneg a (2 * h)
             else 2 * h - Qmod_nonneg a (2 * h)) == w).
  { intros k' Hk'.
    assert (Hm : Qmod_nonneg a (2 * h) == w)
      by (apply (Qmod_nonneg_unique a (2 * h) ltac:(lra) k'); lra).
    case_cmp (Qleb (Qmod_nonneg a (2 * h)) h); lra. }
  destruct Ha as [Ha | Ha]; [apply (Hplus k Ha)|].
  destruct (Qlt_le_dec 0 w) as [Hpos | Hzero].
  - assert (Hm : Qmod_nonneg a (2 * h) == 2 * h - w).
    { apply (Qmod_nonneg_unique a (2 * h) ltac:(lra) (k - 1)); try lra.
      rewrite Ha. unfold Z.sub. rewrite inject_Z_plus, inject_Z_opp.
      change (inject_Z 1) with 1. ring. }
    case_cmp (Qleb (Qmod_nonneg a (2 * h)) h); lra.
  - apply (Hplus k). lra.
Qed.

(** Every point is of one of these two forms. *)
Lemma triangle_fold_form (a : Q) :
  exists (k : Z) (w : Q),
    0 <= w /\ w <= h /\
    (a == inject_Z k * (2 * h) + w \/ a == inject_Z k * (2 * h) - w).
Proof.
  destruct (Qmod_nonneg_bounds a (2 * h)) as [L1 L2]; [lra|].
  assert (Ha : a == inject_Z (Qfloor (a / (2 * h))) * (2 * h)
                    + Qmod_nonneg a (2 * h))
    by (unfold Qmod_nonneg; ring).
  destruct (Qlt_le_dec h (Qmod_nonneg a (2 * h))) as [Hhi | Hlo].
  - exists (Qfloor (a / (2 * h)) + 1)%Z, (2 * h - Qmod_nonneg a (2 * h)).
    split; [lra|]. split; [lra|]. right.
    rewrite inject_Z_plus. change (inject_Z 1) with 1.
    rewrite Ha at 1. ring.
  - exists (Qfloor (a / (2 * h))), (Qmod_nonneg a (2 * h)).
    split; [lra|]. split; [lra|]. left. exact Ha.
Qed.

Lemma triangle_fold_id (a : Q) : 0 <= a -> a <= h -> triangle_fold h a == a.
Proof.
  intros H0 H1. apply (triangle_fold_at a 0 a H0 H1). left.
  change (inject_Z 0) with 0. ring.
Qed.

(** The wave is even: a bounce on the wall [y = 0]. *)
Lemma triangle_fold_opp (a : Q) : triangle_fold h (- a) == triangle_fold h a.
Proof.
  destruct (triangle_fold_form a) as (k & w & Hw0 & Hwh & Ha).
  rewrite (triangle_fold_at a k w Hw0 Hwh Ha).
  apply (triangle_fold_at (- a) (- k) w Hw0 Hwh).
  rewrite inject_Z_opp. destruct Ha as [Ha | Ha]; [right | left]; rewrite Ha; ring.
Qed.

(** The wave is symmetric about [h]: a bounce on the wall [y = h]. *)
Lemma triangle_fold_mirror (a : Q) :
  triangle_fold h (2 * h - a) == triangle_fold h a.
Proof.
  destruct (triangle_fold_form a) as (k & w & Hw0 & Hwh & Ha).
  rewrite (triangle_fold_at a k w Hw0 Hwh Ha).
  apply (triangle_fold_at (2 * h - a) (1 - k) w Hw0 Hwh).
  unfold Z.sub. rewrite inject_Z_plus, inject_Z_opp. change (inject_Z 1) with 1.
  destruct Ha as [Ha | Ha]; [right | left]; rewrite Ha; ring.
Qed.

End TriangleWave.

(** ** The predictor *)

Lemma screenHeight_pos : 0 < inject_Z screenHeight.
Proof. reflexivity. Qed.

(** The code of [predictBallY] computes the triangle wave of the
    straight-line ordinate. *)
Lemma predictBallY_fold (b : Ball) (targetX : Q) :
  predictBallY b targetX == predictBallY_spec b targetX.
Proof.
  unfold predictBallY, predictBallY_spec, triangle_fold.
  fold (straight_line_y b targetX).
  set (a := straight_line_y b targetX).
  pose proof (fmod_made_nonneg a (inject_Z (2 * screenHeight)) ltac:(reflexivity)) as Hw.
  assert (Hp : inject_Z (2 * screenHeight) == 2 * inject_Z screenHeight)
    by reflexivity.
  assert (Hr : Qmod_nonneg a (inject_Z (2 * screenHeight))
               == Qmod_nonneg a (2 * inject_Z screenHeight))
    by (apply Qmod_nonneg_compat; [reflexivity | exact Hp]).
  set (m := if Qltb (fmod a (inject_Z (2 * screenHeight))) 0
            then fmod a (inject_Z (2 * screenHeight)) + inject_Z (2 * screenHeight)
            else fmod a (inject_Z (2 * screenHeight))) in *.
  set (r := Qmod_nonneg a (2 * inject_Z screenHeight)) in *.
  case_cmp (Qleb m (inject_Z screenHeight));
    case_cmp (Qleb r (inject_Z screenHeight)); lra.
Qed.

(** C1: [predictBallY] is the algorithm of the specification.  With
    [y_raw] the straight-line ordinate and [y_mod] the residue of [y_raw]
    modulo [2 * screenHeight] in [[0, 2 * screenHeight)], it returns
    [y_mod] when [y_mod <= screenHeight] and [2 * screenHeight - y_mod]
    otherwise; for the ball at (400, 225) with direction (1, 0.5) and the
    target line 750 it returns 400. *)
Theorem predictBallY_algorithm :
  (forall (b : Ball) (targetX : Q),
      let y_raw := y (position b)
                   + (targetX - x (position b)) * (y (versor b) / x (versor b)) in
      let period := 2 * inject_Z screenHeight in
      let y_mod := Qmod_nonneg y_raw period in
      (exists k : Z, y_raw == inject_Z k * period + y_mod) /\
      0 <= y_mod /\ y_mod < period /\
      predictBallY b targetX
      == (if Qleb y_mod (inject_Z screenHeight) then y_mod else period - y_mod))
  /\ predictBallY
       (mkBall (mkGameObject (mkVector2 400 225) (mkVector2 1 0.5) 400) 7) 750
     == 400.
Proof.
  split.
  - intros b targetX y_raw period y_mod.
    destruct (Qmod_nonneg_bounds y_raw period) as [L1 L2]; [reflexivity|].
    repeat split; try assumption.
    + exists (Qfloor (y_raw / period)). unfold y_mod, Qmod_nonneg. ring.
    + apply predictBallY_fold.
  - reflexivity.
Qed.

(** C3: whatever the ball and the target line, if the ball has a
    horizontal motion then the prediction lies in [[0, screenHeight]]. *)
Theorem predictBallY_in_screen (b : Ball) (targetX : Q) :
  ~ x (versor b) == 0 ->
  0 <= predictBallY b targetX /\ predictBallY b targetX <= inject_Z screenHeight.
Proof.
  intros _. rewrite predictBallY_fold. unfold predictBallY_spec.
  apply triangle_fold_range. exact screenHeight_pos.
Qed.

Lemma predictBallY_in_screen_witness :
  let b := mkBall (mkGameObject (mkVector2 700 20) (mkVector2 (-1) (-0.75)) 460) 7 in
  ~ x (versor b) == 0 /\
  0 <= predictBallY b 55 /\ predictBallY b 55 <= inject_Z screenHeight.
Proof.
  assert (Hx : ~ -1 == 0) by (intro H; discriminate H).
  split; [exact Hx|].
  exact (predictBallY_in_screen
           (mkBall (mkGameObject (mkVector2 700 20) (mkVector2 (-1) (-0.75)) 460) 7)
           55 Hx).
Defined.

(** ** The literal simulation *)

Section Simulation.
Variable h : Q.
Hypothesis h_pos : 0 < h.

Lemma simulate_fold (n : nat) :
  forall px py vx vy targetX,
    ~ vx == 0 -> 0 <= py -> py <= h ->
    0 <= (targetX - px) / vx ->
    path_ahead h py vy ((targetX - px) / vx) <= inject_Z (Z.of_nat n) * h ->
    (1 <= n)%nat ->
    exists r, simulate n h px py vx vy targetX = Some r /\
              r == triangle_fold h (py + vy * ((targetX - px) / vx)).
Proof.
  induction n as [|n IH]; intros px py vx vy targetX Hvx Hpy0 Hpyh HT Hpath Hn;
    [lia|].
  cbn [simulate]. set (T := (targetX - px) / vx) in *.
  assert (Hsucc : inject_Z (Z.of_nat (S n)) == inject_Z (Z.of_nat n) + 1).
  { rewrite Nat2Z.inj_succ. unfold Z.succ. rewrite inject_Z_plus. reflexivity. }
  rewrite Hsucc in Hpath.
  assert (Hfuel : forall m, m <= inject_Z (Z.of_nat n) * h -> 0 < m -> (1 <= n)%nat).
  { intros m Hm Hm0. destruct n as [|n']; [|lia].
    change (inject_Z (Z.of_nat 0)) with 0 in Hm. lra. }
  case_cmp (Qeqb vy 0).
  { exists py. split; [reflexivity|]. symmetry.
    rewrite (triangle_fold_compat h (py + vy * T) py) by (rewrite Hc; ring).
    apply triangle_fold_id; assumption. }
  unfold path_ahead in Hpath.
  case_cmp (Qltb 0 vy).
  - (* the ball climbs towards the wall y = h *)
    set (t_wall := (h - py) / vy).
    assert (Hw : vy * t_wall == h - py) by (unfold t_wall; field; lra).
    case_cmp (Qleb T t_wall).
    + exists (py + vy * T). split; [reflexivity|]. symmetry.
      apply triangle_fold_id; [exact h_pos| |]; nra.
    + assert (HT' : (targetX - (px + vx * t_wall)) / vx == T - t_wall)
        by (unfold T; field; exact Hvx).
      destruct (IH (px + vx * t_wall) h vx (- vy) targetX) as (r & Hr & Hfold);
        try assumption; try lra.
      * unfold path_ahead. case_cmp (Qltb 0 (- vy)); [lra|].
        set (T' := (targetX - (px + vx * t_wall)) / vx) in *. nra.
      * apply (Hfuel (vy * T - (h - py))); nra.
      * exists r. split; [exact Hr|]. rewrite Hfold.
        rewrite <- (triangle_fold_mirror h h_pos (py + vy * T)).
        apply triangle_fold_compat.
        set (T' := (targetX - (px + vx * t_wall)) / vx) in *. nra.
  - (* the ball descends towards the wall y = 0 *)
    assert (Hneg : vy < 0).
    { destruct (Qlt_le_dec vy 0) as [L | L]; [exact L|].
      exfalso. apply Hc. lra. }
    set (t_wall := (0 - py) / vy).
    assert (Hw : vy * t_wall == 0 - py) by (unfold t_wall; field; lra).
    case_cmp (Qleb T t_wall).
    + exists (py + vy * T). split; [reflexivity|]. symmetry.
      apply triangle_fold_id; [exact h_pos| |]; nra.
    + assert (HT' : (targetX - (px + vx * t_wall)) / vx == T - t_wall)
        by (unfold T; field; exact Hvx).
      destruct (IH (px + vx * t_wall) 0 vx (- vy) targetX) as (r & Hr & Hfold);
        try assumption; try lra.
      * unfold path_ahead. case_cmp (Qltb 0 (- vy)); [|lra].
        set (T' := (targetX - (px + vx * t_wall)) / vx) in *. nra.
      * apply (Hfuel (- vy * T - py)); nra.
      * exists r. split; [exact Hr|]. rewrite Hfold.
        rewrite <- (triangle_fold_opp h h_pos (py + vy * T)).
        apply triangle_fold_compat.
        set (T' := (targetX - (px + vx * t_wall)) / vx) in *. nra.
Qed.

Lemma enough_fuel_pays (py vy t : Q) (n : nat) :
  0 <= py -> py <= h -> 0 <= t ->
  (enough_fuel h py vy t <= n)%nat ->
  path_ahead h py vy t <= inject_Z (Z.of_nat n) * h /\ (1 <= n)%nat.
Proof.
  intros Hpy0 Hpyh Ht Hn. unfold enough_fuel in Hn. split; [|lia].
  assert (Hp0 : 0 <= path_ahead h py vy t).
  { unfold path_ahead. case_cmp (Qltb 0 vy); nra. }
  pose proof (Qle_ceiling (path_ahead h py vy t / h)) as Hc.
  set (c := Qceiling (path_ahead h py vy t / h)) in *.
  assert (Hcn : inject_Z c <= inject_Z (Z.of_nat n)).
  { rewrite <- Zle_Qle. lia. }
  assert (Hd : path_ahead h py vy t / h * h == path_ahead h py vy t)
    by (field; lra).
  set (q := path_ahead h py vy t / h) in *.
  nra.
Qed.

End Simulation.

(** C2: for a ball between the walls that has a horizontal motion, and a
    target line that the ball reaches at a time that is not negative, the
    literal simulation of the flight, with as many wall bounces as it
    takes, ends on the ordinate that [predictBallY] returns. *)
Theorem predictBallY_simulation (b : Ball) (targetX : Q) :
  0 <= y (position b) -> y (position b) <= inject_Z screenHeight ->
  ~ x (versor b) == 0 ->
  0 <= (targetX - x (position b)) / x (versor b) ->
  forall fuel : nat,
    (enough_fuel (inject_Z screenHeight) (y (position b)) (y (versor b))
       ((targetX - x (position b)) / x (versor b)) <= fuel)%nat ->
    exists r, simulate_ball fuel b targetX = Some r /\
              r == predictBallY b targetX.
Proof.
  intros Hy0 Hyh Hvx Ht fuel Hfuel.
  destruct (enough_fuel_pays _ screenHeight_pos _ _ _ fuel Hy0 Hyh Ht Hfuel)
    as [Hpath Hone].
  destruct (simulate_fold _ screenHeight_pos fuel
              (x (position b)) (y (position b)) (x (versor b)) (y (versor b))
              targetX Hvx Hy0 Hyh Ht Hpath Hone) as (r & Hr & Hfold).
  exists r. split; [exact Hr|].
  rewrite Hfold, predictBallY_fold. unfold predictBallY_spec, straight_line_y.
  apply triangle_fold_compat. field. exact Hvx.
Qed.

Example steep_ball_simulated :
  option_map Qred (simulate_ball 3 steep_ball 750) = Some 375
  /\ simulate_ball 2 steep_ball 750 = None
  /\ Qred (predictBallY steep_ball 750) = 375.
Proof. repeat split; vm_compute; reflexivity. Qed.

Lemma predictBallY_simulation_witness :
  exists r, simulate_ball 5 steep_ball 750 = Some r /\
            r == predictBallY steep_ball 750.
Proof.
  apply (predictBallY_simulation steep_ball 750).
  - intro H; discriminate H.
  - intro H; discriminate H.
  - intro H; discriminate H.
  - intro H; discriminate H.
  - vm_compute. lia.
Defined.

(** ** The game: what each operation does to the ball *)

Section GameProperties.
Context {E : External}.

Lemma unit_versor_nonzero (b : Ball) :
  x (versor b) = 1 \/ x (versor b) = -1 -> ~ x (versor b) == 0.
Proof. intros [H | H]; rewrite H; intro H0; discriminate H0. Qed.

Lemma predictBallY_checked_defined (b : Ball) (targetX : Q) :
  ~ x (versor b) == 0 ->
  predictBallY_checked b targetX = Some (predictBallY b targetX).
Proof.
  intro H. unfold predictBallY_checked.
  case_cmp (Qeqb (x (versor b)) 0); [contradiction | reflexivity].
Qed.

Lemma predictBallY_checked_undefined (b : Ball) (targetX : Q) :
  predictBallY_checked b targetX = None <-> x (versor b) == 0.
Proof.
  unfold predictBallY_checked.
  case_cmp (Qeqb (x (versor b)) 0); split; intro H;
    try discriminate; try reflexivity; try assumption; contradiction.
Qed.

Lemma aiPrediction_defined (g : Game) :
  ~ x (versor (ball g)) == 0 -> exists p, aiPrediction g = Some p.
Proof.
  intro H. unfold aiPrediction.
  rewrite (predictBallY_checked_defined _ _ H). cbn [obind]. eauto.
Qed.

Lemma handleAIPaddleMovement_defined (g : Game) (resetFunction : bool) :
  ~ x (versor (ball g)) == 0 ->
  exists g', handleAIPaddleMovement g resetFunction = Some g'.
Proof.
  intro H. destruct (aiPrediction_defined g H) as [p Hp].
  unfold handleAIPaddleMovement. rewrite Hp.
  destruct (ai_initialised (aiStatics g)); cbn [obind];
    destruct resetFunction; cbn [obind]; eauto;
    match goal with
    | |- context [if ?c then Some p else _] => destruct c
    end; cbn [obind]; eauto.
Qed.

(** The steering touches the right paddle and its own statics only. *)
Lemma handleAIPaddleMovement_frame (g g' : Game) (resetFunction : bool) :
  handleAIPaddleMovement g resetFunction = Some g' ->
  ball g' = ball g /\ scoreText g' = scoreText g /\
  leftPaddle g' = leftPaddle g /\ soundLog g' = soundLog g /\
  size (rightPaddle g') = size (rightPaddle g) /\
  position (rightPaddle g') = position (rightPaddle g) /\
  currentSpeedRecord g' = currentSpeedRecord g.
Proof.
  unfold handleAIPaddleMovement, obind.
  destruct (ai_initialised (aiStatics g));
    destruct (aiPrediction g) as [p|]; try discriminate;
    destruct resetFunction; try discriminate;
    repeat match goal with
           | |- context [if ?c then _ else _] => destruct c
           end;
    intro H; inversion H; subst; cbn; repeat split; reflexivity.
Qed.

Lemma serve_invariant (b : Ball) (drawn : Z) : ball_invariant (serve b drawn).
Proof.
  split; [left; reflexivity|]. cbn. apply Qle_refl.
Qed.

Lemma resetRound_defined (g : Game) (drawn : Z) :
  exists g', resetRound g drawn = Some g'.
Proof.
  apply handleAIPaddleMovement_defined. cbn. intro H; discriminate H.
Qed.

Lemma resetRound_frame (g g' : Game) (drawn : Z) :
  resetRound g drawn = Some g' ->
  ball g' = serve (ball g) drawn /\ scoreText g' = scoreText g /\
  soundLog g' = soundLog g.
Proof.
  intro H. apply handleAIPaddleMovement_frame in H.
  destruct H as (Hb & Hs & _ & Hl & _). cbn in *. auto.
Qed.

Lemma resetGame_defined (g : Game) (drawn : Z) :
  exists g', resetGame g drawn = Some g'.
Proof.
  apply handleAIPaddleMovement_defined. cbn. intro H; discriminate H.
Qed.

Lemma resetGame_frame (g g' : Game) (drawn : Z) :
  resetGame g drawn = Some g' ->
  ball g' = serve (ball g) drawn /\ scoreText g' = mkScoreText 0 0 /\
  currentSpeedRecord g' = 0%Z.
Proof.
  intro H. apply handleAIPaddleMovement_frame in H.
  destruct H as (Hb & Hs & _ & _ & _ & _ & Hr). cbn in *. auto.
Qed.

Lemma bounce_off_speed (b : Ball) (paddle : Paddle) :
  0 <= speed b -> speed b <= speed (bounce_off b paddle).
Proof.
  intro Hs. cbn.
  set (vy := (y (position b) - (y (position paddle) + y (size paddle) / 2))
             / (y (size paddle) / 2)).
  pose proof (Qabs_nonneg vy) as Habs. unfold fabs. fold vy.
  assert (Hq : 0 <= speed b / 400) by (apply Qle_shift_div_l; lra).
  set (q := speed b / 400) in *. set (m := Qabs vy) in *. nra.
Qed.

Lemma bounce_off_invariant (b : Ball) (paddle : Paddle) :
  ball_invariant b -> ball_invariant (bounce_off b paddle).
Proof.
  intros [Hx Hs]. split.
  - cbn. destruct Hx as [Hx | Hx]; rewrite Hx; [right | left]; reflexivity.
  - pose proof (bounce_off_speed b paddle ltac:(lra)). lra.
Qed.

Lemma handlePaddleBallCollision_cases (g : Game) (isLeft : bool) :
  let paddle := if isLeft then leftPaddle g else rightPaddle g in
  let g' := handlePaddleBallCollision g isLeft in
  (ball g' = ball g \/ ball g' = bounce_off (ball g) paddle) /\
  leftPaddle g' = leftPaddle g /\ rightPaddle g' = rightPaddle g /\
  scoreText g' = scoreText g.
Proof.
  unfold handlePaddleBallCollision.
  destruct (CheckCollisionCircleRec _ _ _); [|cbn; auto].
  destruct isLeft; cbn; auto.
Qed.

Lemma handleWallBallCollision_frame (g : Game) :
  let g' := handleWallBallCollision g in
  position (ball g') = position (ball g) /\ radius (ball g') = radius (ball g) /\
  speed (ball g') = speed (ball g) /\
  x (versor (ball g')) = x (versor (ball g)) /\
  leftPaddle g' = leftPaddle g /\ rightPaddle g' = rightPaddle g /\
  scoreText g' = scoreText g.
Proof.
  unfold handleWallBallCollision.
  destruct (_ || _); cbn; repeat split; reflexivity.
Qed.

Lemma handlePointScoring_idle (g : Game) (drawnSound drawnServe : Z) :
  over_side_edge g = false ->
  handlePointScoring g drawnSound drawnServe = Some g.
Proof.
  unfold over_side_edge, handlePointScoring. intro H.
  apply orb_false_iff in H. destruct H as [H1 H2]. rewrite H1, H2. reflexivity.
Qed.

Lemma handlePointScoring_scores (g g' : Game) (drawnSound drawnServe : Z) :
  over_side_edge g = true ->
  handlePointScoring g drawnSound drawnServe = Some g' ->
  ball g' = serve (ball g) drawnServe.
Proof.
  unfold over_side_edge, handlePointScoring. intros H Hg'.
  destruct (Qleb (inject_Z screenWidth) _).
  - apply resetRound_frame in Hg'. destruct Hg' as [Hb _]. rewrite Hb.
    unfold playSoundEffect. destruct (_ && _); reflexivity.
  - cbn in H. rewrite H in Hg'.
    apply resetRound_frame in Hg'. destruct Hg' as [Hb _]. rewrite Hb.
    unfold playSoundEffect. destruct (_ && _); reflexivity.
Qed.

Lemma handlePointScoring_defined (g : Game) (drawnSound drawnServe : Z) :
  exists g', handlePointScoring g drawnSound drawnServe = Some g'.
Proof.
  unfold handlePointScoring.
  destruct (Qleb (inject_Z screenWidth) _); [apply resetRound_defined|].
  destruct (Qleb _ 0); [apply resetRound_defined | eauto].
Qed.

(** C5: when [CheckCollisionCircleRec] reports that the ball touches the
    paddle, [handlePaddleBallCollision] multiplies the horizontal
    direction of the ball by -1, sets the vertical direction to the offset
    of the ball from the centre of the paddle divided by half the height
    of the paddle, and adds [20 * (speed / 400) * |vertical direction|] to
    the speed, with the old speed and the new vertical direction; the
    position and the radius of the ball stay. *)
Theorem handlePaddleBallCollision_hit (g : Game) (isLeft : bool) :
  let paddle := if isLeft then leftPaddle g else rightPaddle g in
  let b := ball g in
  let b' := ball (handlePaddleBallCollision g isLeft) in
  CheckCollisionCircleRec (position b) (radius b) (toRectangle paddle) = true ->
  x (versor b') = x (versor b) * -1 /\
  y (versor b') = (y (position b) - y (getCenter paddle)) / (y (size paddle) / 2) /\
  speed b' = speed b + 20 * (speed b / 400) * Qabs (y (versor b')) /\
  position b' = position b /\ radius b' = radius b.
Proof.
  intros paddle b b' Hhit. unfold b', handlePaddleBallCollision.
  fold paddle. fold b. rewrite Hhit.
  unfold playSoundEffect. destruct (_ && _); cbn; repeat split; reflexivity.
Qed.

Lemma handlePaddleBallCollision_ball (g : Game) (isLeft : bool) :
  let g' := handlePaddleBallCollision g isLeft in
  ball_invariant (ball g) ->
  ball_invariant (ball g') /\ speed (ball g) <= speed (ball g') /\
  position (ball g') = position (ball g) /\ radius (ball g') = radius (ball g).
Proof.
  intros g' Hinv.
  destruct (handlePaddleBallCollision_cases g isLeft) as [[Hb | Hb] _];
    fold g' in Hb; rewrite Hb.
  - repeat split; try apply Hinv; try reflexivity. apply Qle_refl.
  - split; [apply bounce_off_invariant; exact Hinv|].
    split; [apply bounce_off_speed; destruct Hinv; lra|].
    split; reflexivity.
Qed.

Lemma over_side_edge_ext (g g' : Game) :
  position (ball g') = position (ball g) ->
  radius (ball g') = radius (ball g) ->
  over_side_edge g' = over_side_edge g.
Proof. unfold over_side_edge. intros Hp Hr. rewrite Hp, Hr. reflexivity. Qed.

Lemma getSpeedRecord_ball (g : Game) (resetRecord : bool) :
  ball (getSpeedRecord g resetRecord) = ball g.
Proof.
  unfold getSpeedRecord. destruct resetRecord; [reflexivity|].
  destruct (Qltb _ _); reflexivity.
Qed.

Lemma after_collisions_ball (g : Game) :
  ball_invariant (ball g) ->
  ball_invariant (ball (after_collisions g)) /\
  speed (ball g) <= speed (ball (after_collisions g)) /\
  over_side_edge (after_collisions g) = over_side_edge g.
Proof.
  intro Hinv. unfold after_collisions.
  destruct (handlePaddleBallCollision_ball g true Hinv) as (I1 & S1 & P1 & R1).
  set (g1 := handlePaddleBallCollision g true) in *.
  destruct (handlePaddleBallCollision_ball g1 false I1) as (I2 & S2 & P2 & R2).
  set (g2 := handlePaddleBallCollision g1 false) in *.
  destruct (handleWallBallCollision_frame g2) as (P3 & R3 & S3 & X3 & _).
  set (g3 := handleWallBallCollision g2) in *.
  split; [|split].
  - destruct I2 as [Hx Hs]. split; [rewrite X3; exact Hx | rewrite S3; exact Hs].
  - rewrite S3. lra.
  - apply over_side_edge_ext; congruence.
Qed.

Lemma update_ball (g : Game) (i : FrameInput) :
  ball_invariant (ball g) ->
  exists g', update g i = Some g' /\
             ball_invariant (ball g') /\
             (if over_side_edge g then speed (ball g') = 400
              else speed (ball g) <= speed (ball g')).
Proof.
  intro Hinv. unfold update. fold (after_collisions g).
  destruct (after_collisions_ball g Hinv) as (I3 & S3 & O3).
  set (g3 := after_collisions g) in *.
  assert (Hscore : exists g4, handlePointScoring g3 (rndSound i) (rndServe i) = Some g4
                     /\ ball_invariant (ball g4)
                     /\ (if over_side_edge g then speed (ball g4) = 400
                         else speed (ball g) <= speed (ball g4))).
  { destruct (over_side_edge g) eqn:Ho.
    - destruct (handlePointScoring_defined g3 (rndSound i) (rndServe i)) as [g4 H4].
      exists g4. split; [exact H4|].
      rewrite (handlePointScoring_scores g3 g4 _ _ O3 H4).
      split; [apply serve_invariant | reflexivity].
    - exists g3. split; [apply handlePointScoring_idle; exact O3|]. auto. }
  destruct Hscore as (g4 & H4 & I4 & S4). rewrite H4. cbn [obind].
  destruct (handleAIPaddleMovement_defined g4 false) as [g5 H5];
    [apply unit_versor_nonzero; apply I4|].
  rewrite H5. cbn [obind].
  destruct (handleAIPaddleMovement_frame g4 g5 false H5) as (B5 & _).
  eexists. split; [reflexivity|].
  rewrite getSpeedRecord_ball. cbn. rewrite B5. auto.
Qed.

Lemma readInput_ball (g : Game) (i : FrameInput) :
  exists g1, readInput g i = Some g1 /\
             ball g1 = (if restartPressed i then serve (ball g) (rndRestart i)
                        else ball g).
Proof.
  unfold readInput.
  destruct (getCurrentVerticalKey _ _ _) as [key active].
  destruct (restartPressed i).
  - match goal with
    | |- context [resetGame ?s ?d] =>
        destruct (resetGame_defined s d) as [g1 H1]; exists g1;
        split; [exact H1|];
        apply resetGame_frame in H1; destruct H1 as [Hb _]; rewrite Hb
    end.
    reflexivity.
  - eexists. split; reflexivity.
Qed.

Lemma init_invariant (drawn : Z) : ball_invariant (ball (init drawn)).
Proof. apply serve_invariant. Qed.

(** One frame is defined on a state that satisfies the invariant, and
    leads to such a state. *)
Lemma frame_ball (g : Game) (i : FrameInput) :
  ball_invariant (ball g) ->
  exists g1 g',
    readInput g i = Some g1 /\ update g1 i = Some g' /\
    frame g i = Some g' /\
    ball_invariant (ball g1) /\ ball_invariant (ball g') /\
    speed (ball g1) = (if restartPressed i then 400 else speed (ball g)) /\
    (if over_side_edge g1 then speed (ball g') = 400
     else speed (ball g1) <= speed (ball g')).
Proof.
  intro Hinv.
  destruct (readInput_ball g i) as (g1 & H1 & B1).
  assert (I1 : ball_invariant (ball g1)).
  { rewrite B1. destruct (restartPressed i); [apply serve_invariant | exact Hinv]. }
  destruct (update_ball g1 i I1) as (g' & H' & I' & S').
  exists g1, g'. unfold frame. rewrite H1. cbn [obind].
  repeat split; try assumption; try apply I1; try apply I'.
  rewrite B1. destruct (restartPressed i); reflexivity.
Qed.

Lemma reachable_invariant (g : Game) : reachable g -> ball_invariant (ball g).
Proof.
  induction 1 as [drawn | g i g' Hreach IH Hframe].
  - apply init_invariant.
  - destruct (frame_ball g i IH) as (g1 & g2 & _ & _ & Hf & _ & I2 & _).
    congruence.
Qed.

(** C4: the horizontal direction of the ball is 1 after [init] and after
    a round reset or a full reset, a paddle hit multiplies it by -1 and
    nothing else changes it, so that it is 1 or -1 in every state that the
    game reaches; the predictor is undefined only on a ball without
    horizontal motion, and every frame from a state that the game reaches
    is defined: no call of the predictor divides by zero. *)
Theorem versor_x_is_unit :
  (forall drawn, x (versor (ball (init drawn))) = 1) /\
  (forall g drawn g', resetRound g drawn = Some g' -> x (versor (ball g')) = 1) /\
  (forall g drawn g', resetGame g drawn = Some g' -> x (versor (ball g')) = 1) /\
  (forall g isLeft,
      let vx' := x (versor (ball (handlePaddleBallCollision g isLeft))) in
      vx' = x (versor (ball g)) \/ vx' = x (versor (ball g)) * -1) /\
  (forall g, reachable g ->
             x (versor (ball g)) = 1 \/ x (versor (ball g)) = -1) /\
  (forall b targetX,
      predictBallY_checked b targetX = None <-> x (versor b) == 0) /\
  (forall g i, reachable g ->
               exists g', frame g i = Some g' /\
                          (x (versor (ball g')) = 1 \/ x (versor (ball g')) = -1)).
Proof.
  repeat apply conj.
  - reflexivity.
  - intros g drawn g' H. apply resetRound_frame in H.
    destruct H as [Hb _]. rewrite Hb. reflexivity.
  - intros g drawn g' H. apply resetGame_frame in H.
    destruct H as [Hb _]. rewrite Hb. reflexivity.
  - intros g isLeft vx'. unfold vx'.
    destruct (handlePaddleBallCollision_cases g isLeft) as [[Hb | Hb] _];
      rewrite Hb; [left | right]; reflexivity.
  - intros g Hg. apply (reachable_invariant g Hg).
  - apply predictBallY_checked_undefined.
  - intros g i Hg.
    destruct (frame_ball g i (reachable_invariant g Hg))
      as (g1 & g' & _ & _ & Hf & _ & I' & _).
    exists g'. split; [exact Hf | apply I'].
Qed.

Lemma update_without_event (g g' : Game) (i : FrameInput) :
  CheckCollisionCircleRec (position (ball g)) (radius (ball g))
                          (toRectangle (leftPaddle g)) = false ->
  CheckCollisionCircleRec (position (ball g)) (radius (ball g))
                          (toRectangle (rightPaddle g)) = false ->
  over_side_edge g = false ->
  update g i = Some g' ->
  speed (ball g') = speed (ball g).
Proof.
  intros Hl Hr Ho. unfold update.
  assert (H1 : handlePaddleBallCollision g true = g)
    by (unfold handlePaddleBallCollision; rewrite Hl; reflexivity).
  rewrite H1.
  assert (H2 : handlePaddleBallCollision g false = g)
    by (unfold handlePaddleBallCollision; rewrite Hr; reflexivity).
  rewrite H2.
  destruct (handleWallBallCollision_frame g) as (P3 & R3 & S3 & _).
  set (g3 := handleWallBallCollision g) in *.
  rewrite (handlePointScoring_idle g3)
    by (rewrite (over_side_edge_ext g g3 P3 R3); exact Ho).
  cbn [obind].
  destruct (handleAIPaddleMovement g3 false) as [g5|] eqn:H5; [|discriminate].
  destruct (handleAIPaddleMovement_frame g3 g5 false H5) as (B5 & _).
  cbn [obind]. intro H. injection H as Hg'. rewrite <- Hg'.
  destruct (Qltb _ _); cbn; rewrite B5; exact S3.
Qed.

(** C7: the speed of the ball is at least 400 in every state that the
    game reaches; a paddle test never lowers it and a hit adds an
    increment that is not negative, the wall test leaves it, a scoring
    test without a score leaves the game as it is, and a round reset or a
    full reset sets it to 400.  Over a frame: [readInput] sets it to 400 on
    a restart and leaves it otherwise; [update] then ends with the speed
    400 when the ball is over a side edge, with a speed that is not lower
    when it is not, and with the same speed when moreover the ball touches
    no paddle. *)
Theorem ball_speed_monotone :
  (forall g, reachable g -> 400 <= speed (ball g)) /\
  (forall g isLeft,
      0 <= speed (ball g) ->
      speed (ball g) <= speed (ball (handlePaddleBallCollision g isLeft))) /\
  (forall (b : Ball) (paddle : Paddle),
      0 <= speed b ->
      let increment :=
        20 * (speed b / 400) * Qabs (y (versor (bounce_off b paddle))) in
      speed (bounce_off b paddle) = speed b + increment /\ 0 <= increment) /\
  (forall g, speed (ball (handleWallBallCollision g)) = speed (ball g)) /\
  (forall g drawnSound drawnServe,
      over_side_edge g = false ->
      handlePointScoring g drawnSound drawnServe = Some g) /\
  (forall g drawnSound drawnServe g',
      over_side_edge g = true ->
      handlePointScoring g drawnSound drawnServe = Some g' ->
      speed (ball g') = 400) /\
  (forall g drawn g', resetRound g drawn = Some g' -> speed (ball g') = 400) /\
  (forall g drawn g', resetGame g drawn = Some g' -> speed (ball g') = 400) /\
  (forall g i,
      reachable g ->
      exists g1 g',
        readInput g i = Some g1 /\ update g1 i = Some g' /\
        frame g i = Some g' /\
        speed (ball g1) = (if restartPressed i then 400 else speed (ball g)) /\
        (if over_side_edge g1 then speed (ball g') = 400
         else speed (ball g1) <= speed (ball g'))) /\
  (forall g i g',
      CheckCollisionCircleRec (position (ball g)) (radius (ball g))
                              (toRectangle (leftPaddle g)) = false ->
      CheckCollisionCircleRec (position (ball g)) (radius (ball g))
                              (toRectangle (rightPaddle g)) = false ->
      over_side_edge g = false ->
      update g i = Some g' ->
      speed (ball g') = speed (ball g)).
Proof.
  repeat apply conj.
  - intros g Hg. apply (reachable_invariant g Hg).
  - intros g isLeft Hs.
    destruct (handlePaddleBallCollision_cases g isLeft) as [[Hb | Hb] _];
      rewrite Hb; [apply Qle_refl | apply bounce_off_speed; exact Hs].
  - intros b paddle Hs increment. split; [reflexivity|].
    pose proof (bounce_off_speed b paddle Hs) as Hle.
    change (speed (bounce_off b paddle)) with (speed b + increment) in Hle.
    lra.
  - intro g. apply handleWallBallCollision_frame.
  - apply handlePointScoring_idle.
  - intros g drawnSound drawnServe g' Ho H.
    rewrite (handlePointScoring_scores g g' _ _ Ho H). reflexivity.
  - intros g drawn g' H. apply resetRound_frame in H.
    destruct H as [Hb _]. rewrite Hb. reflexivity.
  - intros g drawn g' H. apply resetGame_frame in H.
    destruct H as [Hb _]. rewrite Hb. reflexivity.
  - intros g i Hg.
    destruct (frame_ball g i (reachable_invariant g Hg))
      as (g1 & g' & H1 & H' & Hf & _ & _ & S1 & S').
    exists g1, g'. auto.
  - intros g i g'. apply update_without_event.
Qed.

Lemma score_then_reset (g : Game) (isLeft : bool) (drawnSound drawnServe : Z) :
  let g1 := playSoundEffect
              (set_scoreText g (incrementScore (scoreText g) isLeft))
              (ScorePoint + drawnSound)%Z in
  scoreText g1 = incrementScore (scoreText g) isLeft /\ ball g1 = ball g /\
  exists g', resetRound g1 drawnServe = Some g' /\
             scoreText g' = incrementScore (scoreText g) isLeft /\
             ball g' = serve (ball g) drawnServe.
Proof.
  intro g1.
  assert (H1 : scoreText g1 = incrementScore (scoreText g) isLeft /\ ball g1 = ball g).
  { unfold g1, playSoundEffect. destruct (_ && _); split; reflexivity. }
  destruct H1 as [Hs Hb]. split; [exact Hs|]. split; [exact Hb|].
  destruct (resetRound_defined g1 drawnServe) as [g' Hg'].
  exists g'. split; [exact Hg'|].
  apply resetRound_frame in Hg'. destruct Hg' as (Hb' & Hs' & _).
  rewrite Hb', Hs', Hs, Hb. split; reflexivity.
Qed.

(** C8: [handlePointScoring] is defined on every state.  When the right
    edge of the ball is at or beyond the screen width, the left score
    grows by one, the right score stays, and the result is that of one
    round reset of the state with the new score.  When it is not and the
    left edge of the ball is at or beyond 0, the same holds with the two
    scores exchanged.  Otherwise the state is unchanged. *)
Theorem handlePointScoring_counts (g : Game) (drawnSound drawnServe : Z) :
  let b := ball g in
  exists g',
    handlePointScoring g drawnSound drawnServe = Some g' /\
    (inject_Z screenWidth <= x (position b) + radius b ->
     scoreLeft (scoreText g') = (scoreLeft (scoreText g) + 1)%Z /\
     scoreRight (scoreText g') = scoreRight (scoreText g) /\
     ball g' = serve b drawnServe /\
     exists g1, scoreText g1 = incrementScore (scoreText g) true /\
                ball g1 = b /\ resetRound g1 drawnServe = Some g') /\
    (x (position b) + radius b < inject_Z screenWidth ->
     x (position b) - radius b <= 0 ->
     scoreRight (scoreText g') = (scoreRight (scoreText g) + 1)%Z /\
     scoreLeft (scoreText g') = scoreLeft (scoreText g) /\
     ball g' = serve b drawnServe /\
     exists g1, scoreText g1 = incrementScore (scoreText g) false /\
                ball g1 = b /\ resetRound g1 drawnServe = Some g') /\
    (x (position b) + radius b < inject_Z screenWidth ->
     0 < x (position b) - radius b ->
     g' = g).
Proof.
  intro b. unfold handlePointScoring. fold b.
  case_cmp (Qleb (inject_Z screenWidth) (x (position b) + radius b)).
  - destruct (score_then_reset g true drawnSound drawnServe)
      as (Hs1 & Hb1 & g' & Hg' & Hs' & Hb').
    exists g'. split; [exact Hg'|]. split; [|split]; [|intros; lra|intros; lra].
    intros _. rewrite Hs'.
    split; [reflexivity|]. split; [reflexivity|]. split; [exact Hb'|].
    eexists. split; [exact Hs1|]. split; [exact Hb1 | exact Hg'].
  - case_cmp (Qleb (x (position b) - radius b) 0).
    + destruct (score_then_reset g false drawnSound drawnServe)
        as (Hs1 & Hb1 & g' & Hg' & Hs' & Hb').
      exists g'. split; [exact Hg'|]. split; [|split]; [intros; lra| |intros; lra].
      intros _ _. rewrite Hs'.
      split; [reflexivity|]. split; [reflexivity|]. split; [exact Hb'|].
      eexists. split; [exact Hs1|]. split; [exact Hb1 | exact Hg'].
    + exists g. split; [reflexivity|].
      split; [|split]; [intros; lra|intros; lra|reflexivity].
Qed.

Lemma randomValidVersor_range (drawn : Z) :
  in_range (-1000) 1000 drawn ->
  -1 <= randomValidVersor drawn /\ randomValidVersor drawn <= 1 /\
  ~ randomValidVersor drawn == 0.
Proof.
  intros [Hlo Hhi]. unfold randomValidVersor.
  rewrite Zle_Qle in Hlo, Hhi.
  change (inject_Z (-1000)) with (-1000) in Hlo.
  change (inject_Z 1000) with 1000 in Hhi.
  assert (Hd : inject_Z drawn / 1000 * 1000 == inject_Z drawn) by (field; lra).
  set (v := inject_Z drawn / 1000) in *.
  case_cmp (Qeqb v 0).
  - split; [lra|]. split; [lra|]. intro H; discriminate H.
  - split; [lra|]. split; [lra | exact Hc].
Qed.

Lemma randomValidVersor_drawn (drawn : Z) :
  (drawn = 0%Z -> randomValidVersor drawn = -1) /\
  (drawn <> 0%Z -> randomValidVersor drawn = inject_Z drawn / 1000).
Proof.
  split.
  - intros ->. reflexivity.
  - intro Hne. unfold randomValidVersor.
    case_cmp (Qeqb (inject_Z drawn / 1000) 0); [|reflexivity].
    exfalso. apply Hne.
    assert (Hd : inject_Z drawn == 0).
    { assert (Hm : inject_Z drawn / 1000 * 1000 == inject_Z drawn) by (field; lra).
      rewrite <- Hm, Hc. reflexivity. }
    change 0 with (inject_Z 0) in Hd. rewrite inject_Z_injective in Hd. exact Hd.
Qed.

(** C10: for a value drawn between -1000 and 1000, the serve of [init],
    of a round reset (also the one that follows a point of either side)
    and of a full reset gives the ball the direction [(1, v)], where [v]
    is the thousandth of the value drawn, or -1 when the value drawn is
    0; [v] is between -1 and 1 and is not 0. *)
Theorem serve_direction (drawn : Z) :
  in_range (-1000) 1000 drawn ->
  let v := randomValidVersor drawn in
  (-1 <= v /\ v <= 1 /\ ~ v == 0) /\
  (drawn = 0%Z -> v = -1) /\
  (drawn <> 0%Z -> v = inject_Z drawn / 1000) /\
  versor (ball (init drawn)) = mkVector2 1 v /\
  (forall g, exists g', resetRound g drawn = Some g' /\
                        versor (ball g') = mkVector2 1 v) /\
  (forall g, exists g', resetGame g drawn = Some g' /\
                        versor (ball g') = mkVector2 1 v) /\
  (forall g drawnSound,
      over_side_edge g = true ->
      exists g', handlePointScoring g drawnSound drawn = Some g' /\
                 versor (ball g') = mkVector2 1 v).
Proof.
  intros Hr v.
  split; [apply randomValidVersor_range; exact Hr|].
  split; [apply randomValidVersor_drawn|].
  split; [apply randomValidVersor_drawn|].
  split; [reflexivity|].
  split; [|split].
  - intro g. destruct (resetRound_defined g drawn) as [g' Hg'].
    exists g'. split; [exact Hg'|].
    apply resetRound_frame in Hg'. destruct Hg' as [Hb _]. rewrite Hb. reflexivity.
  - intro g. destruct (resetGame_defined g drawn) as [g' Hg'].
    exists g'. split; [exact Hg'|].
    apply resetGame_frame in Hg'. destruct Hg' as [Hb _]. rewrite Hb. reflexivity.
  - intros g drawnSound Ho.
    destruct (handlePointScoring_defined g drawnSound drawn) as [g' Hg'].
    exists g'. split; [exact Hg'|].
    rewrite (handlePointScoring_scores g g' _ _ Ho Hg'). reflexivity.
Qed.

Lemma both_true (c1 c2 : Q * Q) :
  Qleb (fst c1) (snd c1) && Qleb (fst c2) (snd c2) = true <->
  fst c1 <= snd c1 /\ fst c2 <= snd c2.
Proof. rewrite andb_true_iff, !Qleb_true. reflexivity. Qed.

(** C6, amended: a paddle whose rectangle lies in the screen is, after one
    [Paddle::update], a paddle whose rectangle lies in the screen.  On
    each axis the new coordinate is the one proposed when the rectangle
    at the proposed coordinate lies between the bounds of that axis, and
    the old one otherwise; the size, the direction and the speed stay. *)
Theorem Paddle_update_stays_in_screen (p : Paddle) (dt : Q) :
  paddle_in_screen p ->
  let delta := vmul (vmul (normaliseVersor (versor p)) (speed p)) dt in
  let newPosition := vadd (position p) delta in
  let p' := Paddle_update p dt in
  paddle_in_screen p' /\
  (0 <= y newPosition /\ y newPosition + y (size p) <= inject_Z screenHeight ->
   y (position p') = y newPosition) /\
  (~ (0 <= y newPosition /\ y newPosition + y (size p) <= inject_Z screenHeight) ->
   y (position p') = y (position p)) /\
  (0 <= x newPosition /\ x newPosition + x (size p) <= inject_Z screenWidth ->
   x (position p') = x newPosition) /\
  (~ (0 <= x newPosition /\ x newPosition + x (size p) <= inject_Z screenWidth) ->
   x (position p') = x (position p)) /\
  size p' = size p /\ versor p' = versor p /\ speed p' = speed p.
Proof.
  intros (Hx0 & Hx1 & Hy0 & Hy1) delta newPosition p'.
  unfold p', Paddle_update, paddle_in_screen. fold delta. fold newPosition.
  cbn [position paddle_obj set_position size x y versor speed].
  pose proof (both_true (0, y newPosition)
                (y newPosition + y (size p), inject_Z screenHeight)) as By.
  pose proof (both_true (0, x newPosition)
                (x newPosition + x (size p), inject_Z screenWidth)) as Bx.
  cbn [fst snd] in By, Bx.
  destruct (Qleb 0 (y newPosition)
            && Qleb (y newPosition + y (size p)) (inject_Z screenHeight)) eqn:Ey;
    destruct (Qleb 0 (x newPosition)
              && Qleb (x newPosition + x (size p)) (inject_Z screenWidth)) eqn:Ex;
    repeat match goal with
           | H : true = true <-> _ |- _ => destruct (proj1 H eq_refl); clear H
           | H : false = true <-> _ |- _ =>
               assert (~ (_ /\ _)) by (intro Hn; apply H in Hn; discriminate Hn);
               clear H
           end;
    repeat apply conj; try reflexivity; try assumption;
      try (intros; reflexivity); try (intros; contradiction);
      try (intro Hn; exfalso; apply Hn; split; assumption).
Qed.

End GameProperties.

(** ** The key resolver *)

Lemma resolve_frames_snoc (a0 : Z) (frames : list (bool * bool)) (f : bool * bool) :
  snd (resolve_frames a0 (frames ++ [f]))
  = snd (getCurrentVerticalKey (snd (resolve_frames a0 frames)) (fst f) (snd f)).
Proof.
  revert a0. induction frames as [|[u d] rest IH]; intro a0.
  - destruct f as [u d]. cbn.
    destruct (getCurrentVerticalKey a0 u d) as [k a]. reflexivity.
  - cbn [app resolve_frames].
    destruct (getCurrentVerticalKey a0 u d) as [k a].
    specialize (IH a).
    destruct (resolve_frames a (rest ++ [f])) as [ks a'].
    destruct (resolve_frames a rest) as [ks0 a0']. exact IH.
Qed.

(** After frames at whose end the down key has been held for longer than
    the up key, the key on record is the down key; and the converse. *)
Lemma down_on_record (a0 : Z) (frames : list (bool * bool)) :
  (held_for fst (rev frames) < held_for snd (rev frames))%nat ->
  snd (resolve_frames a0 frames) = KEY_DOWN.
Proof.
  induction frames as [|[u d] older IH] using rev_ind; [cbn; lia|].
  rewrite rev_unit, resolve_frames_snoc. cbn [held_for fst snd].
  destruct u, d; cbn; intro H; try reflexivity; try (apply IH); lia.
Qed.

Lemma up_on_record (a0 : Z) (frames : list (bool * bool)) :
  (held_for snd (rev frames) < held_for fst (rev frames))%nat ->
  snd (resolve_frames a0 frames) = KEY_UP.
Proof.
  induction frames as [|[u d] older IH] using rev_ind; [cbn; lia|].
  rewrite rev_unit, resolve_frames_snoc. cbn [held_for fst snd].
  destruct u, d; cbn; intro H; try reflexivity; try (apply IH); lia.
Qed.

(** C9: the resolver gives the neutral value when no key is held and the
    key held when one is; when both are held it gives the key other than
    the one on record, which is the key that came to be held later
    whenever one did; when the later key is let go and the other stays
    held, it gives the other.  Up, then both, then down alone, then none,
    gives up, down, down, neutral. *)
Theorem getCurrentVerticalKey_resolves :
  (forall a, getCurrentVerticalKey a false false = ((-1)%Z, (-1)%Z)) /\
  (forall a, getCurrentVerticalKey a true false = (KEY_UP, KEY_UP)) /\
  (forall a, getCurrentVerticalKey a false true = (KEY_DOWN, KEY_DOWN)) /\
  getCurrentVerticalKey KEY_UP true true = (KEY_DOWN, KEY_UP) /\
  getCurrentVerticalKey KEY_DOWN true true = (KEY_UP, KEY_DOWN) /\
  (forall a0 frames,
      (held_for fst (rev frames) < held_for snd (rev frames))%nat ->
      fst (resolve_frames a0 (frames ++ [(true, true)]))
      = fst (resolve_frames a0 frames) ++ [KEY_UP]) /\
  (forall a0 frames,
      (held_for snd (rev frames) < held_for fst (rev frames))%nat ->
      fst (resolve_frames a0 (frames ++ [(true, true)]))
      = fst (resolve_frames a0 frames) ++ [KEY_DOWN]) /\
  (forall a0,
      fst (resolve_frames a0 [(true, false); (true, true); (true, false)])
      = [KEY_UP; KEY_DOWN; KEY_UP]) /\
  (forall a0,
      fst (resolve_frames a0 [(false, true); (true, true); (false, true)])
      = [KEY_DOWN; KEY_UP; KEY_DOWN]) /\
  (forall a0,
      resolve_frames a0 [(true, false); (true, true); (false, true); (false, false)]
      = ([KEY_UP; KEY_DOWN; KEY_DOWN; (-1)%Z], (-1)%Z)).
Proof.
  assert (Hfst : forall a0 frames f,
             fst (resolve_frames a0 (frames ++ [f]))
             = fst (resolve_frames a0 frames)
               ++ [fst (getCurrentVerticalKey (snd (resolve_frames a0 frames))
                          (fst f) (snd f))]).
  { intros a0 frames f. revert a0.
    induction frames as [|[u d] rest IH]; intro a0.
    - destruct f as [u d]. cbn.
      destruct (getCurrentVerticalKey a0 u d) as [k a]. reflexivity.
    - cbn [app resolve_frames].
      destruct (getCurrentVerticalKey a0 u d) as [k a].
      specialize (IH a).
      destruct (resolve_frames a (rest ++ [f])) as [ks a'].
      destruct (resolve_frames a rest) as [ks0 a0']. cbn in *. congruence. }
  repeat apply conj; try (intros; reflexivity).
  - intros a0 frames H. rewrite Hfst, (down_on_record a0 frames H). reflexivity.
  - intros a0 frames H. rewrite Hfst, (up_on_record a0 frames H). reflexivity.
Qed.

(** ** The theorems at sample data, with raylib's collision test *)

Lemma handlePaddleBallCollision_hit_witness :
  let paddle := leftPaddle hit_state in
  let b := ball hit_state in
  let b' := ball (handlePaddleBallCollision hit_state true) in
  CheckCollisionCircleRec (position b) (radius b) (toRectangle paddle) = true /\
  x (versor b') = x (versor b) * -1 /\
  y (versor b') = (y (position b) - y (getCenter paddle)) / (y (size paddle) / 2) /\
  speed b' = speed b + 20 * (speed b / 400) * Qabs (y (versor b')) /\
  position b' = position b /\ radius b' = radius b.
Proof.
  split; [reflexivity|].
  exact (handlePaddleBallCollision_hit hit_state true eq_refl).
Defined.

(** The ball that comes from the left at (62, 200) leaves the left paddle
    to the right with the vertical direction -1/2 and the speed 410. *)
Example hit_state_bounce :
  let b' := ball (handlePaddleBallCollision hit_state true) in
  Qred (x (versor b')) = 1 /\ Qred (y (versor b')) = -1 # 2 /\
  Qred (speed b') = 410 /\ soundLog (handlePaddleBallCollision hit_state true) = [0%Z].
Proof. repeat split; vm_compute; reflexivity. Qed.

(** C6 as stated fails: the paddle whose lower edge is below the screen
    proposes to move up by 5, which still leaves its lower edge below the
    screen, so the move is refused and the paddle is outside the screen
    after the update as well. *)
Lemma Paddle_update_leaves_stray_outside :
  y (position (Paddle_update stray_paddle (1 # 60))) = 400 /\
  ~ paddle_in_screen (Paddle_update stray_paddle (1 # 60)).
Proof.
  split; [reflexivity|].
  intros (_ & _ & _ & H). vm_compute in H. apply H. reflexivity.
Qed.

Lemma high_paddle_in_screen : paddle_in_screen high_paddle.
Proof. repeat split; intro H; discriminate H. Defined.

Lemma Paddle_update_stays_in_screen_witness :
  paddle_in_screen (Paddle_update high_paddle (1 # 60)) /\
  size (Paddle_update high_paddle (1 # 60)) = size high_paddle.
Proof.
  pose proof (Paddle_update_stays_in_screen high_paddle (1 # 60)
                high_paddle_in_screen) as H.
  cbv zeta in H. split; [apply H|apply H].
Defined.

(** The paddle at 2 below the upper edge that proposes to move up by 5
    stays at 2: the move is refused, not cut at the edge. *)
Example high_paddle_not_clamped :
  y (position (Paddle_update high_paddle (1 # 60))) = 2.
Proof. reflexivity. Qed.

Lemma serve_direction_witness :
  randomValidVersor 0 = -1 /\ versor (ball (init 0)) = mkVector2 1 (-1).
Proof.
  assert (Hr : in_range (-1000) 1000 0) by (unfold in_range; lia).
  pose proof (serve_direction 0 Hr) as H. cbv zeta in H.
  destruct H as (_ & H0 & _ & Hi & _).
  split; [exact (H0 eq_refl) | exact Hi].
Defined.

(** One frame on each of the two edge states: a point for the left
    player, a point for the right player, and the serve to the right at
    speed 400 after both. *)
Example edge_states_score :
  option_map (fun g => (scoreText g, x (versor (ball g)), speed (ball g)))
             (frame right_edge_state (idle_frame (1 # 60)))
  = Some (mkScoreText 1 0, 1, 400)
  /\ option_map (fun g => (scoreText g, x (versor (ball g)), speed (ball g)))
                (frame left_edge_state (idle_frame (1 # 60)))
     = Some (mkScoreText 0 1, 1, 400).
Proof. split; vm_compute; reflexivity. Qed.

(** * Further properties of the code *)

(** ** Vectors and motion *)

Section Motion.
Context {E : External}.

Lemma normaliseVersor_x_zero (vec : Vector2) :
  x vec == 0 -> x (normaliseVersor vec) == 0.
Proof.
  intro H. unfold normaliseVersor.
  set (len := sqrt _).
  destruct (Qeqb len 0); cbn [x]; [reflexivity|].
  rewrite H. unfold Qdiv. ring.
Qed.

Lemma normaliseVersor_y_zero (vec : Vector2) :
  y vec == 0 -> y (normaliseVersor vec) == 0.
Proof.
  intro H. unfold normaliseVersor.
  set (len := sqrt _).
  destruct (Qeqb len 0); cbn [y]; [reflexivity|].
  rewrite H. unfold Qdiv. ring.
Qed.

(** X1: [normaliseVersor] keeps a zero component zero whatever the square
    root returns, so the zero vector is normalised to the zero vector. *)
Theorem normaliseVersor_zero_component (vec : Vector2) :
  (x vec == 0 -> x (normaliseVersor vec) == 0) /\
  (y vec == 0 -> y (normaliseVersor vec) == 0) /\
  (x vec == 0 -> y vec == 0 ->
   x (normaliseVersor vec) == 0 /\ y (normaliseVersor vec) == 0).
Proof.
  split; [apply normaliseVersor_x_zero|].
  split; [apply normaliseVersor_y_zero|].
  intros Hx Hy. split;
    [apply normaliseVersor_x_zero | apply normaliseVersor_y_zero]; assumption.
Qed.

(** Where the square root is exact and not zero, the normalised vector has
    length 1 and is the vector divided by its length. *)
Lemma normaliseVersor_exact (vec : Vector2) :
  sqrt (length_sq vec) * sqrt (length_sq vec) == length_sq vec ->
  ~ sqrt (length_sq vec) == 0 ->
  length_sq (normaliseVersor vec) == 1 /\
  x (normaliseVersor vec) * sqrt (length_sq vec) == x vec /\
  y (normaliseVersor vec) * sqrt (length_sq vec) == y vec.
Proof.
  intros Hsq Hnz. unfold normaliseVersor. fold (length_sq vec).
  case_cmp (Qeqb (sqrt (length_sq vec)) 0); [contradiction|].
  set (len := sqrt (length_sq vec)) in *.
  unfold length_sq at 1. cbn [x y].
  split; [|split; field; exact Hnz].
  assert (Hs : x vec / len * (x vec / len) + y vec / len * (y vec / len)
               == length_sq vec / (len * len))
    by (unfold length_sq; field; exact Hnz).
  rewrite Hs, <- Hsq. field. exact Hnz.
Qed.

(** X2: for a vector at whose squared length the square root is exact and
    not zero, [normaliseVersor] returns a vector of length 1 that is the
    vector divided by its length. *)
Theorem normaliseVersor_unit (vec : Vector2) :
  sqrt (length_sq vec) * sqrt (length_sq vec) == length_sq vec ->
  ~ sqrt (length_sq vec) == 0 ->
  length_sq (normaliseVersor vec) == 1 /\
  x (normaliseVersor vec) * sqrt (length_sq vec) == x vec /\
  y (normaliseVersor vec) * sqrt (length_sq vec) == y vec.
Proof. apply normaliseVersor_exact. Qed.

(** X3: [GameObject::update] moves the ball and leaves its direction, its
    speed and its radius; where the square root is exact and not zero at
    the direction of the ball, the ball moves by the distance
    [speed * deltaTime], whatever the length of its direction. *)
Theorem Ball_update_distance (b : Ball) (dt : Q) :
  sqrt (length_sq (versor b)) * sqrt (length_sq (versor b))
  == length_sq (versor b) ->
  ~ sqrt (length_sq (versor b)) == 0 ->
  let b' := Ball_update b dt in
  length_sq (vsub (position b') (position b)) == (speed b * dt) * (speed b * dt) /\
  versor b' = versor b /\ speed b' = speed b /\ radius b' = radius b.
Proof.
  intros Hsq Hnz b'.
  destruct (normaliseVersor_exact (versor b) Hsq Hnz) as (Hunit & _).
  split; [|repeat split; reflexivity].
  unfold b', Ball_update, GameObject_update. cbn [position ball_obj set_position].
  set (n := normaliseVersor (versor b)) in *.
  unfold length_sq in *. cbn [x y vsub vadd vmul].
  set (nx := x n) in *. set (ny := y n) in *.
  transitivity ((nx * nx + ny * ny) * (speed b * dt * (speed b * dt))); [ring|].
  rewrite Hunit. ring.
Qed.

End Motion.

(** ** The predictor again *)

(** The wave at the mirror image of a point is the mirror image of the
    wave at the point. *)
Lemma triangle_fold_flip (h : Q) (a : Q) :
  0 < h -> triangle_fold h (h - a) == h - triangle_fold h a.
Proof.
  intro h_pos.
  destruct (triangle_fold_form h h_pos a) as (k & w & Hw0 & Hwh & Ha).
  rewrite (triangle_fold_at h h_pos a k w Hw0 Hwh Ha).
  destruct Ha as [Ha | Ha].
  - apply (triangle_fold_at h h_pos (h - a) (- k) (h - w)); try lra.
    left. rewrite inject_Z_opp, Ha. ring.
  - apply (triangle_fold_at h h_pos (h - a) (1 - k) (h - w)); try lra.
    right. unfold Z.sub. rewrite inject_Z_plus, inject_Z_opp.
    change (inject_Z 1) with 1. rewrite Ha. ring.
Qed.

(** X4: the prediction depends on the direction of the ball through its
    slope only: multiplying the direction by a number other than 0 does
    not change it. *)
Theorem predictBallY_scale (b : Ball) (k targetX : Q) :
  ~ k == 0 -> ~ x (versor b) == 0 ->
  predictBallY (scale_versor b k) targetX == predictBallY b targetX.
Proof.
  intros Hk Hvx. rewrite !predictBallY_fold. unfold predictBallY_spec.
  apply triangle_fold_compat. unfold straight_line_y, scale_versor.
  cbn [position versor ball_obj set_versor vmul x y]. field. split; assumption.
Qed.

(** X5: the prediction for the mirror image of the ball (ordinate [y]
    replaced by [screenHeight - y], vertical direction reversed) is the
    mirror image of the prediction. *)
Theorem predictBallY_mirror (b : Ball) (targetX : Q) :
  ~ x (versor b) == 0 ->
  predictBallY (mirror_ball b) targetX
  == inject_Z screenHeight - predictBallY b targetX.
Proof.
  intro Hvx. rewrite !predictBallY_fold. unfold predictBallY_spec.
  rewrite <- (triangle_fold_flip _ _ screenHeight_pos).
  apply triangle_fold_compat. unfold straight_line_y, mirror_ball.
  cbn [position versor ball_obj x y]. field. exact Hvx.
Qed.


(** ** Collisions, scoring and sounds *)

Section Collisions.
Context {E : External}.

Lemma handlePaddleBallCollision_on_hit (g : Game) (isLeft : bool) :
  let paddle := if isLeft then leftPaddle g else rightPaddle g in
  let g' := handlePaddleBallCollision g isLeft in
  CheckCollisionCircleRec (position (ball g)) (radius (ball g))
                          (toRectangle paddle) = true ->
  ball g' = bounce_off (ball g) paddle /\
  soundLog g' = (if isLeft then PlayerPaddleHit else AIPaddleHit) :: soundLog g /\
  leftPaddle g' = leftPaddle g /\ rightPaddle g' = rightPaddle g.
Proof.
  intros paddle g' Hhit. unfold g', handlePaddleBallCollision.
  fold paddle. rewrite Hhit. destruct isLeft; cbn; auto.
Qed.

(** X7: after a hit of a ball whose centre is level with the paddle, the
    vertical direction of the ball is between -1 and 1; after a hit level
    with the centre of the paddle it is 0 and the speed has not grown. *)
Theorem handlePaddleBallCollision_angle (g : Game) (isLeft : bool) :
  let paddle := if isLeft then leftPaddle g else rightPaddle g in
  let b' := ball (handlePaddleBallCollision g isLeft) in
  CheckCollisionCircleRec (position (ball g)) (radius (ball g))
                          (toRectangle paddle) = true ->
  0 < y (size paddle) ->
  y (position paddle) <= y (position (ball g)) ->
  y (position (ball g)) <= y (position paddle) + y (size paddle) ->
  -1 <= y (versor b') /\ y (versor b') <= 1 /\
  (y (position (ball g)) == y (getCenter paddle) ->
   y (versor b') == 0 /\ speed b' == speed (ball g)).
Proof.
  intros paddle b' Hhit Hsize Hlo Hhi.
  destruct (handlePaddleBallCollision_on_hit g isLeft Hhit) as (Hb & _).
  fold paddle in Hb. unfold b'. rewrite Hb. clear Hb b'.
  unfold bounce_off, getCenter, fabs. cbn [versor speed ball_obj x y].
  set (by0 := y (position (ball g))) in *.
  set (py := y (position paddle)) in *. set (sy := y (size paddle)) in *.
  assert (Hv : (by0 - (py + sy / 2)) / (sy / 2) * (sy / 2) == by0 - (py + sy / 2))
    by (field; lra).
  set (vy := (by0 - (py + sy / 2)) / (sy / 2)) in *.
  assert (Hhalf : sy / 2 * 2 == sy) by (field; lra).
  set (half := sy / 2) in *.
  split; [nra|]. split; [nra|].
  intro Hc.
  assert (Hvy : vy == 0).
  { assert (Hz : vy * half == 0) by lra.
    destruct (Qmult_integral _ _ Hz) as [H0 | H0]; [exact H0 | lra]. }
  split; [exact Hvy|]. rewrite Hvy. change (Qabs 0) with 0. ring.
Qed.

(** X8: the paddle test has no memory: made twice on a ball that has not
    moved, it reports the hit twice, so that the horizontal direction of
    the ball is back to what it was and the hit sound is played twice. *)
Theorem handlePaddleBallCollision_twice (g : Game) (isLeft : bool) :
  let paddle := if isLeft then leftPaddle g else rightPaddle g in
  let g2 := handlePaddleBallCollision (handlePaddleBallCollision g isLeft) isLeft in
  let id := if isLeft then PlayerPaddleHit else AIPaddleHit in
  CheckCollisionCircleRec (position (ball g)) (radius (ball g))
                          (toRectangle paddle) = true ->
  x (versor (ball g2)) == x (versor (ball g)) /\
  position (ball g2) = position (ball g) /\
  soundLog g2 = id :: id :: soundLog g.
Proof.
  intros paddle g2 id Hhit.
  destruct (handlePaddleBallCollision_on_hit g isLeft Hhit) as (Hb & Hs & Hl & Hr).
  fold paddle in Hb.
  set (g1 := handlePaddleBallCollision g isLeft) in *.
  assert (Hp1 : (if isLeft then leftPaddle g1 else rightPaddle g1) = paddle)
    by (unfold paddle; destruct isLeft; assumption).
  assert (Hhit1 : CheckCollisionCircleRec (position (ball g1)) (radius (ball g1))
                    (toRectangle (if isLeft then leftPaddle g1 else rightPaddle g1))
                  = true).
  { rewrite Hp1, Hb. exact Hhit. }
  destruct (handlePaddleBallCollision_on_hit g1 isLeft Hhit1) as (Hb2 & Hs2 & _).
  fold g2 in Hb2, Hs2. rewrite Hb2, Hs2, Hs, Hb.
  split; [cbn; ring|]. split; reflexivity.
Qed.

(** X9: [handleWallBallCollision] multiplies the vertical direction of a
    ball that touches a wall by -1 and leaves every other state as it is;
    it never changes the size of the vertical direction; made twice on a
    ball that has not moved, it gives the vertical direction back. *)
Theorem handleWallBallCollision_flip (g : Game) :
  let g' := handleWallBallCollision g in
  (at_wall (ball g) = true -> y (versor (ball g')) = y (versor (ball g)) * -1) /\
  (at_wall (ball g) = false -> g' = g) /\
  Qabs (y (versor (ball g'))) == Qabs (y (versor (ball g))) /\
  y (versor (ball (handleWallBallCollision g'))) == y (versor (ball g)).
Proof.
  intro g'. unfold g', handleWallBallCollision, at_wall.
  destruct (Qleb (y (position (ball g)) - radius (ball g)) 0
            || Qleb (inject_Z screenHeight) (y (position (ball g)) + radius (ball g)))
    eqn:Hw; cbn [ball set_ball position versor radius ball_obj set_versor x y].
  - rewrite Hw. cbn [ball set_ball versor ball_obj set_versor y].
    split; [reflexivity|]. split; [discriminate|].
    split; [|ring].
    rewrite Qabs_Qmult. change (Qabs (-1)) with 1. ring.
  - rewrite Hw. split; [discriminate|]. split; [reflexivity|].
    split; reflexivity.
Qed.

Lemma serve_not_over_edge (g : Game) (b : Ball) (drawn : Z) :
  ball g = serve b drawn -> radius b < 400 -> over_side_edge g = false.
Proof.
  intros Hb Hr. unfold over_side_edge. rewrite Hb.
  cbn [serve position radius ball_obj x].
  apply orb_false_iff. rewrite !Qleb_false.
  assert (Hw : inject_Z screenWidth == 800) by reflexivity.
  assert (Hm : inject_Z screenWidth / 2 == 400) by reflexivity.
  rewrite Hw, Hm. split; lra.
Qed.

(** X10: a point is counted once: after [handlePointScoring] on a ball of
    radius below 400 the ball is over no side edge, and a second call
    changes nothing. *)
Theorem handlePointScoring_once (g g' : Game) (drawnSound drawnServe : Z) :
  radius (ball g) < 400 ->
  handlePointScoring g drawnSound drawnServe = Some g' ->
  over_side_edge g' = false /\
  forall drawnSound' drawnServe',
    handlePointScoring g' drawnSound' drawnServe' = Some g'.
Proof.
  intros Hr Hg'.
  assert (Ho : over_side_edge g' = false).
  { destruct (over_side_edge g) eqn:Hedge.
    - apply (serve_not_over_edge g' (ball g) drawnServe); [|exact Hr].
      apply (handlePointScoring_scores g g' _ _ Hedge Hg').
    - rewrite (handlePointScoring_idle g _ _ Hedge) in Hg'.
      injection Hg' as <-. exact Hedge. }
  split; [exact Ho|]. intros. apply handlePointScoring_idle. exact Ho.
Qed.

(** X11: with a draw of 0 or 1, a point plays exactly one of the two
    score sounds, the one with the identifier [ScorePoint] plus the draw,
    and the scoring test plays nothing when there is no point. *)
Theorem handlePointScoring_sound (g g' : Game) (drawnSound drawnServe : Z) :
  in_range 0 1 drawnSound ->
  handlePointScoring g drawnSound drawnServe = Some g' ->
  soundLog g' = (if over_side_edge g
                 then (ScorePoint + drawnSound)%Z :: soundLog g
                 else soundLog g).
Proof.
  intros [Hlo Hhi] Hg'.
  assert (Hplay : forall s, soundLog (playSoundEffect s (ScorePoint + drawnSound)%Z)
                            = (ScorePoint + drawnSound)%Z :: soundLog s).
  { intro s. unfold playSoundEffect, ScorePoint.
    replace ((0 <=? 2 + drawnSound)%Z && (2 + drawnSound <? 4)%Z) with true;
      [reflexivity|].
    symmetry. apply andb_true_iff. split; [apply Z.leb_le | apply Z.ltb_lt]; lia. }
  unfold over_side_edge. unfold handlePointScoring in Hg'.
  destruct (Qleb (inject_Z screenWidth) _).
  - apply resetRound_frame in Hg'. destruct Hg' as (_ & _ & Hl).
    rewrite Hl, Hplay. reflexivity.
  - cbn [orb]. destruct (Qleb _ 0).
    + apply resetRound_frame in Hg'. destruct Hg' as (_ & _ & Hl).
      rewrite Hl, Hplay. reflexivity.
    + injection Hg' as <-. reflexivity.
Qed.

End Collisions.

(** X12: the resolver returns a key only when that key is held, and the
    neutral value exactly when no key is held, whatever key is on
    record; the key on record stays or becomes the key returned. *)
Theorem getCurrentVerticalKey_held (a : Z) (up down : bool) :
  let k := fst (getCurrentVerticalKey a up down) in
  let a' := snd (getCurrentVerticalKey a up down) in
  (k = KEY_UP -> up = true) /\
  (k = KEY_DOWN -> down = true) /\
  (k = (-1)%Z <-> up = false /\ down = false) /\
  (k = KEY_UP \/ k = KEY_DOWN \/ k = (-1)%Z) /\
  (a' = a \/ a' = k).
Proof.
  unfold getCurrentVerticalKey.
  destruct up, down; cbn [negb andb xorb fst snd];
    try destruct (a =? KEY_UP)%Z; cbn [fst snd]; unfold KEY_UP, KEY_DOWN;
    repeat split; intros; try discriminate; try tauto; try lia; auto;
    try (match goal with H : _ /\ _ |- _ => destruct H; discriminate end).
Qed.

(** ** The stages of a frame *)

Section Frames.
Context {E : External}.

Lemma Paddle_update_in_screen (p : Paddle) (dt : Q) :
  paddle_in_screen p -> paddle_in_screen (Paddle_update p dt).
Proof.
  intros (Hx0 & Hx1 & Hy0 & Hy1).
  unfold Paddle_update, paddle_in_screen.
  cbn [position paddle_obj set_position size x y].
  set (np := vadd (position p) _).
  destruct (Qleb 0 (y np) && Qleb (y np + y (size p)) (inject_Z screenHeight)) eqn:Ey;
    destruct (Qleb 0 (x np) && Qleb (x np + x (size p)) (inject_Z screenWidth)) eqn:Ex;
    repeat match goal with
           | H : _ && _ = true |- _ =>
               apply andb_true_iff in H; destruct H as [?H ?H]
           | H : Qleb _ _ = true |- _ => apply Qleb_true in H
           end;
    repeat split; assumption.
Qed.

Lemma Paddle_update_rest (p : Paddle) (dt : Q) :
  size (Paddle_update p dt) = size p /\ versor (Paddle_update p dt) = versor p
  /\ speed (Paddle_update p dt) = speed p.
Proof. repeat split; reflexivity. Qed.

(** A paddle without horizontal direction keeps its abscissa. *)
Lemma Paddle_update_column (p : Paddle) (dt : Q) :
  x (versor p) == 0 ->
  x (position (Paddle_update p dt)) == x (position p).
Proof.
  intro Hv. pose proof (normaliseVersor_x_zero (versor p) Hv) as Hn.
  unfold Paddle_update. cbn [position paddle_obj set_position x].
  set (n := normaliseVersor (versor p)) in *.
  destruct (_ && _); [|reflexivity].
  cbn [vadd vmul x]. rewrite Hn. ring.
Qed.

Lemma handlePaddleBallCollision_rest (g : Game) (isLeft : bool) :
  let g' := handlePaddleBallCollision g isLeft in
  leftPaddle g' = leftPaddle g /\ rightPaddle g' = rightPaddle g /\
  scoreText g' = scoreText g /\ currentSpeedRecord g' = currentSpeedRecord g /\
  aiStatics g' = aiStatics g /\ activeKey g' = activeKey g /\
  position (ball g') = position (ball g) /\ radius (ball g') = radius (ball g).
Proof.
  unfold handlePaddleBallCollision.
  destruct (CheckCollisionCircleRec _ _ _); [|cbn; repeat split; reflexivity].
  destruct isLeft; cbn; repeat split; reflexivity.
Qed.

Lemma handleWallBallCollision_rest (g : Game) :
  let g' := handleWallBallCollision g in
  leftPaddle g' = leftPaddle g /\ rightPaddle g' = rightPaddle g /\
  scoreText g' = scoreText g /\ currentSpeedRecord g' = currentSpeedRecord g /\
  aiStatics g' = aiStatics g /\ activeKey g' = activeKey g /\
  position (ball g') = position (ball g) /\ radius (ball g') = radius (ball g).
Proof.
  unfold handleWallBallCollision.
  destruct (_ || _); cbn; repeat split; reflexivity.
Qed.

Lemma after_collisions_rest (g : Game) :
  let g' := after_collisions g in
  leftPaddle g' = leftPaddle g /\ rightPaddle g' = rightPaddle g /\
  scoreText g' = scoreText g /\ currentSpeedRecord g' = currentSpeedRecord g /\
  aiStatics g' = aiStatics g /\ activeKey g' = activeKey g /\
  position (ball g') = position (ball g) /\ radius (ball g') = radius (ball g).
Proof.
  unfold after_collisions.
  destruct (handlePaddleBallCollision_rest g true)
    as (A1 & A2 & A3 & A4 & A5 & A6 & A7 & A8).
  set (g1 := handlePaddleBallCollision g true) in *.
  destruct (handlePaddleBallCollision_rest g1 false)
    as (B1 & B2 & B3 & B4 & B5 & B6 & B7 & B8).
  set (g2 := handlePaddleBallCollision g1 false) in *.
  destruct (handleWallBallCollision_rest g2)
    as (C1 & C2 & C3 & C4 & C5 & C6 & C7 & C8).
  cbv zeta. repeat split; congruence.
Qed.

Lemma handleAIPaddleMovement_rest (g g' : Game) (resetFunction : bool) :
  handleAIPaddleMovement g resetFunction = Some g' ->
  activeKey g' = activeKey g /\
  (resetFunction = true -> rightPaddle g' = rightPaddle g) /\
  (resetFunction = false -> x (versor (rightPaddle g')) == 0).
Proof.
  unfold handleAIPaddleMovement, obind.
  destruct (ai_initialised (aiStatics g));
    destruct (aiPrediction g) as [p|]; try discriminate;
    destruct resetFunction; try discriminate;
    repeat match goal with
           | |- context [if ?c then _ else _] => destruct c
           end;
    intro H; inversion H; subst; cbn [activeKey set_aiStatics set_rightPaddle rightPaddle];
    (split; [reflexivity|]); (split; [intro; try discriminate; reflexivity|]);
    intro; try discriminate;
    cbn [versor paddle_obj pointTowards set_versor];
    apply normaliseVersor_x_zero; cbn [vsub x]; ring.
Qed.

Lemma handlePointScoring_rest (g g' : Game) (drawnSound drawnServe : Z) :
  handlePointScoring g drawnSound drawnServe = Some g' ->
  leftPaddle g' = leftPaddle g /\ rightPaddle g' = rightPaddle g /\
  currentSpeedRecord g' = currentSpeedRecord g /\ activeKey g' = activeKey g /\
  radius (ball g') = radius (ball g) /\
  scoreText g'
  = (if Qleb (inject_Z screenWidth) (x (position (ball g)) + radius (ball g))
     then incrementScore (scoreText g) true
     else if Qleb (x (position (ball g)) - radius (ball g)) 0
          then incrementScore (scoreText g) false
          else scoreText g).
Proof.
  unfold handlePointScoring.
  assert (Hreset : forall s, resetRound s drawnServe = Some g' ->
            leftPaddle g' = leftPaddle s /\ rightPaddle g' = rightPaddle s /\
            currentSpeedRecord g' = currentSpeedRecord s /\
            activeKey g' = activeKey s /\ radius (ball g') = radius (ball s) /\
            scoreText g' = scoreText s).
  { intros s Hs. unfold resetRound in Hs.
    destruct (handleAIPaddleMovement_frame _ _ _ Hs) as (Hb & Hsc & Hl & _ & _ & _ & Hr).
    destruct (handleAIPaddleMovement_rest _ _ _ Hs) as (Hk & Hrp & _).
    rewrite Hb, Hsc, Hl, Hr, Hk, (Hrp eq_refl). cbn. repeat split; reflexivity. }
  assert (Hplay : forall s id,
            leftPaddle (playSoundEffect s id) = leftPaddle s /\
            rightPaddle (playSoundEffect s id) = rightPaddle s /\
            currentSpeedRecord (playSoundEffect s id) = currentSpeedRecord s /\
            activeKey (playSoundEffect s id) = activeKey s /\
            ball (playSoundEffect s id) = ball s /\
            scoreText (playSoundEffect s id) = scoreText s).
  { intros s id. unfold playSoundEffect. destruct (_ && _); cbn; repeat split; reflexivity. }
  destruct (Qleb (inject_Z screenWidth) _).
  - intro H. apply Hreset in H. destruct H as (H1 & H2 & H3 & H4 & H5 & H6).
    destruct (Hplay (set_scoreText g (incrementScore (scoreText g) true))
                    (ScorePoint + drawnSound)%Z) as (P1 & P2 & P3 & P4 & P5 & P6).
    rewrite H1, H2, H3, H4, H5, H6, P1, P2, P3, P4, P5, P6. cbn. repeat split; reflexivity.
  - destruct (Qleb _ 0).
    + intro H. apply Hreset in H. destruct H as (H1 & H2 & H3 & H4 & H5 & H6).
      destruct (Hplay (set_scoreText g (incrementScore (scoreText g) false))
                      (ScorePoint + drawnSound)%Z) as (P1 & P2 & P3 & P4 & P5 & P6).
      rewrite H1, H2, H3, H4, H5, H6, P1, P2, P3, P4, P5, P6. cbn. repeat split; reflexivity.
    + intro H. injection H as <-. repeat split; reflexivity.
Qed.

(** [update], stage by stage. *)
Lemma update_stages (g g' : Game) (i : FrameInput) :
  update g i = Some g' ->
  exists g4 g5,
    handlePointScoring (after_collisions g) (rndSound i) (rndServe i) = Some g4 /\
    handleAIPaddleMovement g4 false = Some g5 /\
    leftPaddle g' = Paddle_update (leftPaddle g5) (deltaTime i) /\
    rightPaddle g' = Paddle_update (rightPaddle g5) (deltaTime i) /\
    ball g' = Ball_update (ball g5) (deltaTime i) /\
    scoreText g' = scoreText g5 /\ aiStatics g' = aiStatics g5 /\
    activeKey g' = activeKey g5 /\ soundLog g' = soundLog g5 /\
    currentSpeedRecord g'
    = (if Qltb (inject_Z (currentSpeedRecord g5)) (speed (ball g5))
       then Qtrunc (speed (ball g5)) else currentSpeedRecord g5).
Proof.
  unfold update. fold (after_collisions g).
  destruct (handlePointScoring (after_collisions g) _ _) as [g4|] eqn:H4;
    [|discriminate].
  cbn [obind].
  destruct (handleAIPaddleMovement g4 false) as [g5|] eqn:H5; [|discriminate].
  cbn [obind]. intro H. injection H as <-.
  exists g4, g5. split; [reflexivity|]. split; [exact H5|].
  unfold getSpeedRecord.
  cbn [currentSpeedRecord set_ball set_rightPaddle set_leftPaddle ball speed
       Ball_update ball_obj GameObject_update set_position].
  destruct (Qltb _ _); cbn; repeat split; reflexivity.
Qed.

(** [readInput], with and without a restart. *)
Lemma readInput_stages (g g1 : Game) (i : FrameInput) :
  readInput g i = Some g1 ->
  let key := fst (getCurrentVerticalKey (activeKey g) (upPressed i) (downPressed i)) in
  versor (leftPaddle g1)
  = (if (key =? KEY_UP)%Z
     then mkVector2 (x (versor (leftPaddle g))) (inject_Z UP)
     else if (key =? KEY_DOWN)%Z
          then mkVector2 (x (versor (leftPaddle g))) (inject_Z DOWN)
          else mkVector2 (inject_Z NONE) (inject_Z NONE)) /\
  size (leftPaddle g1) = size (leftPaddle g) /\
  size (rightPaddle g1) = size (rightPaddle g) /\
  radius (ball g1) = radius (ball g) /\
  activeKey g1
  = snd (getCurrentVerticalKey (activeKey g) (upPressed i) (downPressed i)) /\
  (restartPressed i = false ->
   position (leftPaddle g1) = position (leftPaddle g) /\
   rightPaddle g1 = rightPaddle g /\ ball g1 = ball g /\
   scoreText g1 = scoreText g /\
   currentSpeedRecord g1 = currentSpeedRecord g /\
   aiStatics g1 = aiStatics g /\ soundLog g1 = soundLog g) /\
  (restartPressed i = true ->
   position (leftPaddle g1) = mkVector2 50 (inject_Z screenHeight / 2 - 50) /\
   position (rightPaddle g1)
   = mkVector2 (inject_Z screenWidth - 50) (inject_Z screenHeight / 2 - 50) /\
   ball g1 = serve (ball g) (rndRestart i) /\
   scoreText g1 = mkScoreText 0 0 /\ currentSpeedRecord g1 = 0%Z).
Proof.
  unfold readInput.
  destruct (getCurrentVerticalKey (activeKey g) (upPressed i) (downPressed i))
    as [key active].
  cbn [fst snd]. destruct (restartPressed i).
  - intro H. unfold resetGame in H.
    destruct (handleAIPaddleMovement_frame _ _ _ H)
      as (Hb & Hs & Hl & _ & Hsz & Hpos & Hr).
    destruct (handleAIPaddleMovement_rest _ _ _ H) as (Hk & Hrp & _).
    specialize (Hrp eq_refl).
    rewrite Hb, Hs, Hl, Hr, Hk, Hrp.
    cbn. repeat split; try reflexivity; congruence.
  - intro H. injection H as <-.
    cbn. repeat split; try reflexivity; congruence.
Qed.

Lemma init_game_invariant (drawn : Z) : game_invariant (init drawn).
Proof.
  unfold game_invariant, paddle_in_screen. cbn.
  repeat split; try reflexivity; try lia; intro H; discriminate H.
Qed.

Lemma readInput_game_invariant (g g1 : Game) (i : FrameInput) :
  game_invariant g -> readInput g i = Some g1 -> game_invariant g1.
Proof.
  intros (Hrad & Hsl & Hsr & Hxl & Hxr & Hinl & Hinr & Hvl & Hs1 & Hs2) H.
  destruct (readInput_stages g g1 i H) as (Hv & Hsz1 & Hsz2 & Hr & _ & Hno & Hyes).
  assert (Hv0 : x (versor (leftPaddle g1)) = 0).
  { rewrite Hv. destruct (_ =? KEY_UP)%Z; [exact Hvl|].
    destruct (_ =? KEY_DOWN)%Z; [exact Hvl | reflexivity]. }
  unfold game_invariant, paddle_in_screen in *.
  rewrite Hsz1, Hsz2, Hr, Hsl, Hsr.
  destruct (restartPressed i).
  - destruct (Hyes eq_refl) as (P1 & P2 & _ & Hsc & _).
    rewrite P1, P2, Hsc. cbn.
    repeat split; try reflexivity; try assumption; try lia;
      intro Hd; discriminate Hd.
  - destruct (Hno eq_refl) as (P1 & P2 & _ & Hsc & _).
    rewrite P1, P2, Hsc. rewrite Hsl in Hinl. rewrite Hsr in Hinr.
    repeat split; try assumption; try apply Hinl; try apply Hinr.
Qed.

Lemma update_game_invariant (g g' : Game) (i : FrameInput) :
  game_invariant g -> update g i = Some g' -> game_invariant g'.
Proof.
  intros (Hrad & Hsl & Hsr & Hxl & Hxr & Hinl & Hinr & Hvl & Hs1 & Hs2) H.
  destruct (update_stages g g' i H)
    as (g4 & g5 & H4 & H5 & Ul & Ur & Ub & Us & _).
  destruct (after_collisions_rest g) as (A1 & A2 & A3 & _ & _ & _ & _ & A8).
  destruct (handlePointScoring_rest _ _ _ _ H4) as (S1 & S2 & _ & _ & S5 & S6).
  destruct (handleAIPaddleMovement_frame _ _ _ H5)
    as (Bb & Bs & Bl & _ & Bsz & Bpos & _).
  destruct (handleAIPaddleMovement_rest _ _ _ H5) as (_ & _ & Bv).
  specialize (Bv eq_refl).
  assert (Lp : leftPaddle g5 = leftPaddle g) by congruence.
  assert (Rsz : size (rightPaddle g5) = size (rightPaddle g)) by congruence.
  assert (Rpos : position (rightPaddle g5) = position (rightPaddle g)) by congruence.
  assert (Rin : paddle_in_screen (rightPaddle g5)).
  { unfold paddle_in_screen in *. rewrite Rsz, Rpos. exact Hinr. }
  unfold game_invariant. rewrite Ul, Ur, Ub, Us, Bs, S6, A3.
  split; [cbn; congruence|].
  split; [rewrite Lp; exact Hsl|].
  split; [cbn [size Paddle_update]; congruence|].
  split; [rewrite Lp, Paddle_update_column; [exact Hxl | rewrite Hvl; reflexivity]|].
  split; [rewrite (Paddle_update_column _ _ Bv), Rpos; exact Hxr|].
  split; [rewrite Lp; apply Paddle_update_in_screen; exact Hinl|].
  split; [apply Paddle_update_in_screen; exact Rin|].
  split; [rewrite Lp; exact Hvl|].
  destruct (Qleb (inject_Z screenWidth) _); [cbn; lia|].
  destruct (Qleb _ 0); cbn; lia.
Qed.

Lemma reachable_game_invariant (g : Game) : reachable g -> game_invariant g.
Proof.
  induction 1 as [drawn | g i g' Hreach IH Hframe].
  - apply init_game_invariant.
  - unfold frame in Hframe.
    destruct (readInput g i) as [g1|] eqn:H1; [|discriminate].
    cbn [obind] in Hframe.
    apply (update_game_invariant g1 g' i); [|exact Hframe].
    apply (readInput_game_invariant g g1 i IH H1).
Qed.


(** The tests of [handlePointScoring] on the ball of [g]. *)
Lemma frame_stages (g g' : Game) (i : FrameInput) :
  frame g i = Some g' ->
  exists g1, readInput g i = Some g1 /\ update g1 i = Some g'.
Proof.
  unfold frame. destruct (readInput g i) as [g1|]; [|discriminate].
  cbn [obind]. eauto.
Qed.


(** ** The speed record *)



(** ** The statics of the steering *)

Lemma aiPrediction_value (g : Game) (p : Q) :
  aiPrediction g = Some p ->
  p = predictBallY (ball g)
        (x (position (rightPaddle g)) + x (size (rightPaddle g)) / 2)
      - y (size (rightPaddle g)) / 2.
Proof.
  unfold aiPrediction, predictBallY_checked.
  destruct (Qeqb _ 0); cbn [obind]; [discriminate|].
  intro H. injection H as <-. reflexivity.
Qed.

Lemma aiPrediction_range (g : Game) (p : Q) :
  size (rightPaddle g) = mkVector2 10 100 ->
  aiPrediction g = Some p -> -50 <= p /\ p <= 400.
Proof.
  intros Hsz Hp. rewrite (aiPrediction_value g p Hp), Hsz. cbn [y].
  set (t := x (position (rightPaddle g)) + _).
  pose proof (predictBallY_fold (ball g) t) as Hf.
  pose proof (triangle_fold_range _ screenHeight_pos (straight_line_y (ball g) t))
    as [L1 L2].
  unfold predictBallY_spec in Hf. rewrite <- Hf in L1, L2.
  assert (Hh : inject_Z screenHeight == 450) by reflexivity.
  assert (H50 : 100 / 2 == 50) by reflexivity.
  rewrite Hh in L2. rewrite H50. split; lra.
Qed.

Lemma handleAIPaddleMovement_statics (g g' : Game) (resetFunction : bool) :
  handleAIPaddleMovement g resetFunction = Some g' ->
  ai_initialised (aiStatics g') = true /\
  (aiPrediction g = Some (predictedY (aiStatics g')) \/
   ai_initialised (aiStatics g) = true /\
   predictedY (aiStatics g') = predictedY (aiStatics g)) /\
  (resetFunction = false ->
   lastFrameBallDirX (aiStatics g')
   = if negb (Qeqb (x (versor (ball g))) (inject_Z LEFT)) then RIGHT else LEFT) /\
  (resetFunction = false -> ai_initialised (aiStatics g) = true ->
   if turned_right g
   then aiPrediction g = Some (predictedY (aiStatics g'))
   else predictedY (aiStatics g') = predictedY (aiStatics g)).
Proof.
  unfold handleAIPaddleMovement, turned_right, obind.
  destruct (ai_initialised (aiStatics g)) eqn:Hi;
    destruct (aiPrediction g) as [p|] eqn:Hp; try discriminate;
    destruct resetFunction; try discriminate;
    cbn [lastFrameBallDirX predictedY];
    try destruct ((_ =? LEFT)%Z && Qeqb _ (inject_Z RIGHT)) eqn:Ht;
    try discriminate;
    intro H; injection H as <-; cbn;
    repeat split; auto; try discriminate; try congruence.
Qed.

Lemma handleAIPaddleMovement_ai_invariant (g g' : Game) (resetFunction : bool) :
  size (rightPaddle g) = mkVector2 10 100 -> ai_invariant g ->
  handleAIPaddleMovement g resetFunction = Some g' ->
  ai_invariant g' /\ ai_initialised (aiStatics g') = true.
Proof.
  intros Hsz Hinv H.
  destruct (handleAIPaddleMovement_statics g g' resetFunction H)
    as (Hi & [Hp | [Hi0 Hp]] & _).
  - split; [|exact Hi]. intros _. apply (aiPrediction_range g _ Hsz Hp).
  - split; [|exact Hi]. intros _. rewrite Hp. apply Hinv. exact Hi0.
Qed.

Lemma handlePointScoring_ai_invariant (g g' : Game) (drawnSound drawnServe : Z) :
  size (rightPaddle g) = mkVector2 10 100 -> ai_invariant g ->
  handlePointScoring g drawnSound drawnServe = Some g' ->
  ai_invariant g' /\ (over_side_edge g = false -> aiStatics g' = aiStatics g).
Proof.
  intros Hsz Hinv. unfold handlePointScoring, over_side_edge.
  assert (Hplay : forall s id,
            rightPaddle (playSoundEffect s id) = rightPaddle s /\
            aiStatics (playSoundEffect s id) = aiStatics s).
  { intros s id. unfold playSoundEffect. destruct (_ && _); split; reflexivity. }
  assert (Hreset : forall s, rightPaddle s = rightPaddle g ->
            aiStatics s = aiStatics g ->
            resetRound s drawnServe = Some g' -> ai_invariant g').
  { intros s Hr Ha Hs. unfold resetRound in Hs.
    apply (handleAIPaddleMovement_ai_invariant _ _ _) in Hs; [apply Hs| |].
    - cbn. rewrite Hr. exact Hsz.
    - unfold ai_invariant. cbn. rewrite Ha. exact Hinv. }
  destruct (Qleb (inject_Z screenWidth) _).
  - intro H. split; [|discriminate].
    destruct (Hplay (set_scoreText g (incrementScore (scoreText g) true))
                    (ScorePoint + drawnSound)%Z) as [P1 P2].
    exact (Hreset _ P1 P2 H).
  - destruct (Qleb _ 0).
    + intro H. split; [|discriminate].
      destruct (Hplay (set_scoreText g (incrementScore (scoreText g) false))
                      (ScorePoint + drawnSound)%Z) as [P1 P2].
      exact (Hreset _ P1 P2 H).
    + intro H. injection H as <-. split; [exact Hinv | reflexivity].
Qed.

Lemma readInput_ai_invariant (g g1 : Game) (i : FrameInput) :
  size (rightPaddle g) = mkVector2 10 100 -> ai_invariant g ->
  readInput g i = Some g1 -> ai_invariant g1.
Proof.
  intros Hsz Hinv. unfold readInput.
  destruct (getCurrentVerticalKey _ _ _) as [key active].
  destruct (restartPressed i).
  - intro H. unfold resetGame in H.
    apply (handleAIPaddleMovement_ai_invariant _ _ _) in H; [apply H| |].
    + cbn. exact Hsz.
    + exact Hinv.
  - intro H. injection H as <-. exact Hinv.
Qed.

Lemma handlePointScoring_ball_invariant (g g' : Game) (drawnSound drawnServe : Z) :
  ball_invariant (ball g) ->
  handlePointScoring g drawnSound drawnServe = Some g' ->
  ball_invariant (ball g').
Proof.
  intros Hinv H. destruct (over_side_edge g) eqn:Ho.
  - rewrite (handlePointScoring_scores g g' _ _ Ho H). apply serve_invariant.
  - rewrite (handlePointScoring_idle g _ _ Ho) in H. injection H as <-. exact Hinv.
Qed.

(** What a frame leaves in the statics of the steering. *)
Lemma frame_ai_statics (g g' : Game) (i : FrameInput) :
  ball_invariant (ball g) -> game_invariant g -> ai_invariant g ->
  frame g i = Some g' ->
  ai_invariant g' /\ ai_initialised (aiStatics g') = true /\
  inject_Z (lastFrameBallDirX (aiStatics g')) = x (versor (ball g')).
Proof.
  intros Hball Hgame Hai Hf.
  destruct (frame_stages g g' i Hf) as (g1 & H1 & H').
  assert (Hgame1 : game_invariant g1) by (apply (readInput_game_invariant g g1 i Hgame H1)).
  assert (Hai1 : ai_invariant g1).
  { apply (readInput_ai_invariant g g1 i); [apply Hgame | exact Hai | exact H1]. }
  assert (Hball1 : ball_invariant (ball g1)).
  { destruct (readInput_ball g i) as (g1' & H1' & Hb). rewrite H1 in H1'.
    injection H1' as <-. rewrite Hb.
    destruct (restartPressed i); [apply serve_invariant | exact Hball]. }
  destruct (update_stages g1 g' i H')
    as (g4 & g5 & H4 & H5 & _ & _ & Ub & _ & Ua & _).
  destruct (after_collisions_rest g1) as (_ & A2 & _ & _ & A5 & _).
  destruct (after_collisions_ball g1 Hball1) as (Hball3 & _).
  assert (Hsz3 : size (rightPaddle (after_collisions g1)) = mkVector2 10 100)
    by (rewrite A2; apply Hgame1).
  assert (Hai3 : ai_invariant (after_collisions g1))
    by (unfold ai_invariant; rewrite A5; exact Hai1).
  destruct (handlePointScoring_ai_invariant _ _ _ _ Hsz3 Hai3 H4) as (Hai4 & _).
  destruct (handlePointScoring_rest _ _ _ _ H4) as (_ & S2 & _).
  pose proof (handlePointScoring_ball_invariant _ _ _ _ Hball3 H4) as Hball4.
  assert (Hsz4 : size (rightPaddle g4) = mkVector2 10 100) by (rewrite S2; exact Hsz3).
  destruct (handleAIPaddleMovement_ai_invariant _ _ _ Hsz4 Hai4 H5) as (Hai5 & Hi5).
  destruct (handleAIPaddleMovement_statics _ _ _ H5) as (_ & _ & Hlast & _).
  specialize (Hlast eq_refl).
  destruct (handleAIPaddleMovement_frame _ _ _ H5) as (Bb & _).
  unfold ai_invariant. rewrite Ua, Ub.
  split; [exact Hai5|]. split; [exact Hi5|].
  rewrite Hlast. cbn [Ball_update versor ball_obj GameObject_update set_position].
  rewrite Bb. destruct Hball4 as [[Hx | Hx] _]; rewrite Hx; reflexivity.
Qed.

Lemma reachable_ai_invariant (g : Game) : reachable g -> ai_invariant g.
Proof.
  induction 1 as [drawn | g i g' Hreach IH Hframe].
  - intro H. discriminate H.
  - apply (frame_ai_statics g g' i); try assumption.
    + apply reachable_invariant. exact Hreach.
    + apply reachable_game_invariant. exact Hreach.
Qed.

(** X16: after every frame the statics of the steering are initialised,
    the direction on record is the horizontal direction of the ball, and
    the ordinate kept for the right paddle is between -50 and 400. *)
Theorem steering_statics_after_frame (g g' : Game) (i : FrameInput) :
  reachable g -> frame g i = Some g' ->
  ai_initialised (aiStatics g') = true /\
  inject_Z (lastFrameBallDirX (aiStatics g')) = x (versor (ball g')) /\
  -50 <= predictedY (aiStatics g') /\ predictedY (aiStatics g') <= 400.
Proof.
  intros Hg Hf.
  destruct (frame_ai_statics g g' i (reachable_invariant g Hg)
              (reachable_game_invariant g Hg) (reachable_ai_invariant g Hg) Hf)
    as (Hai & Hi & Hlast).
  split; [exact Hi|]. split; [exact Hlast|]. apply Hai. exact Hi.
Qed.


(** X18: after a frame the direction of the left paddle is the one that
    the keys ask for: none when no key is held, up or down when one key is
    held, and when both are held the one opposite to the key on record;
    it never has a horizontal part. *)
Theorem left_paddle_obeys_keys (g g' : Game) (i : FrameInput) :
  reachable g -> frame g i = Some g' ->
  versor (leftPaddle g')
  = match upPressed i, downPressed i with
    | false, false => mkVector2 0 0
    | true, false => mkVector2 0 (-1)
    | false, true => mkVector2 0 1
    | true, true =>
        if (activeKey g =? KEY_UP)%Z then mkVector2 0 1 else mkVector2 0 (-1)
    end.
Proof.
  intros Hg Hf.
  destruct (reachable_game_invariant g Hg) as (_ & _ & _ & _ & _ & _ & _ & Hv0 & _).
  destruct (frame_stages g g' i Hf) as (g1 & H1 & H').
  destruct (readInput_stages g g1 i H1) as (Hv & _).
  destruct (update_stages g1 g' i H') as (g4 & g5 & H4 & H5 & Ul & _).
  destruct (after_collisions_rest g1) as (A1 & _).
  destruct (handlePointScoring_rest _ _ _ _ H4) as (S1 & _).
  destruct (handleAIPaddleMovement_frame _ _ _ H5) as (_ & _ & Bl & _).
  rewrite Ul. cbn [versor Paddle_update paddle_obj set_position].
  rewrite Bl, S1, A1, Hv, Hv0. unfold getCurrentVerticalKey.
  destruct (upPressed i), (downPressed i); cbn [negb andb xorb fst];
    try reflexivity.
  destruct (activeKey g =? KEY_UP)%Z; reflexivity.
Qed.

End Frames.

(** ** The further properties at sample data *)

Lemma normaliseVersor_unit_witness :
  length_sq (normaliseVersor three_four) == 1.
Proof.
  assert (Hsq : sqrt (length_sq three_four) * sqrt (length_sq three_four)
                == length_sq three_four) by reflexivity.
  assert (Hnz : ~ sqrt (length_sq three_four) == 0)
    by (intro H; vm_compute in H; discriminate H).
  exact (proj1 (normaliseVersor_unit three_four Hsq Hnz)).
Defined.

Lemma Ball_update_distance_witness :
  length_sq (vsub (position (Ball_update flying_ball (1 # 4))) (position flying_ball))
  == (400 * (1 # 4)) * (400 * (1 # 4)).
Proof.
  assert (Hsq : sqrt (length_sq (versor flying_ball)) * sqrt (length_sq (versor flying_ball))
                == length_sq (versor flying_ball)) by reflexivity.
  assert (Hnz : ~ sqrt (length_sq (versor flying_ball)) == 0)
    by (intro H; vm_compute in H; discriminate H).
  exact (proj1 (Ball_update_distance flying_ball (1 # 4) Hsq Hnz)).
Defined.

Lemma predictBallY_scale_witness :
  predictBallY (scale_versor steep_ball 2) 750 == predictBallY steep_ball 750.
Proof.
  apply (predictBallY_scale steep_ball 2 750); intro H; discriminate H.
Defined.

Lemma predictBallY_mirror_witness :
  predictBallY (mirror_ball steep_ball) 750
  == inject_Z screenHeight - predictBallY steep_ball 750.
Proof.
  apply (predictBallY_mirror steep_ball 750). intro H; discriminate H.
Defined.


Lemma handlePaddleBallCollision_angle_witness :
  -1 <= y (versor (ball (handlePaddleBallCollision hit_state true))) /\
  y (versor (ball (handlePaddleBallCollision hit_state true))) <= 1.
Proof.
  assert (Hhit : CheckCollisionCircleRec (position (ball hit_state))
                   (radius (ball hit_state)) (toRectangle (leftPaddle hit_state))
                 = true) by reflexivity.
  assert (Hsize : 0 < y (size (leftPaddle hit_state))) by reflexivity.
  assert (Hlo : y (position (leftPaddle hit_state)) <= y (position (ball hit_state)))
    by (intro H; discriminate H).
  assert (Hhi : y (position (ball hit_state))
                <= y (position (leftPaddle hit_state)) + y (size (leftPaddle hit_state)))
    by (intro H; discriminate H).
  pose proof (handlePaddleBallCollision_angle hit_state true Hhit Hsize Hlo Hhi) as H.
  cbv zeta in H. split; apply H.
Defined.

Lemma handlePaddleBallCollision_twice_witness :
  soundLog (handlePaddleBallCollision (handlePaddleBallCollision hit_state true) true)
  = [PlayerPaddleHit; PlayerPaddleHit].
Proof.
  assert (Hhit : CheckCollisionCircleRec (position (ball hit_state))
                   (radius (ball hit_state)) (toRectangle (leftPaddle hit_state))
                 = true) by reflexivity.
  pose proof (handlePaddleBallCollision_twice hit_state true Hhit) as H.
  cbv zeta in H. apply H.
Defined.

Lemma handlePointScoring_once_witness :
  exists g', handlePointScoring right_edge_state 0 0 = Some g' /\
             over_side_edge g' = false.
Proof.
  assert (Hr : radius (ball right_edge_state) < 400) by reflexivity.
  destruct (handlePointScoring right_edge_state 0 0) as [g'|] eqn:H.
  - exists g'. split; [reflexivity|].
    apply (handlePointScoring_once right_edge_state g' 0 0 Hr H).
  - exfalso. vm_compute in H. discriminate H.
Defined.

Lemma handlePointScoring_sound_witness :
  exists g', handlePointScoring left_edge_state 1 0 = Some g' /\
             soundLog g' = [3%Z].
Proof.
  assert (Hr : in_range 0 1 1) by (unfold in_range; lia).
  destruct (handlePointScoring left_edge_state 1 0) as [g'|] eqn:H.
  - exists g'. split; [reflexivity|].
    apply (handlePointScoring_sound left_edge_state g' 1 0 Hr H).
  - exfalso. vm_compute in H. discriminate H.
Defined.



Lemma steering_statics_after_frame_witness :
  exists g', frame (init 0) (idle_frame (1 # 4)) = Some g' /\
             ai_initialised (aiStatics g') = true.
Proof.
  destruct (frame (init 0) (idle_frame (1 # 4))) as [g'|] eqn:H.
  - exists g'. split; [reflexivity|].
    exact (proj1 (steering_statics_after_frame (init 0) g' (idle_frame (1 # 4))
                    (reachable_init 0) H)).
  - exfalso. vm_compute in H. discriminate H.
Defined.


Lemma left_paddle_obeys_keys_witness :
  exists g', frame (init 0) (up_frame (1 # 4)) = Some g' /\
             versor (leftPaddle g') = mkVector2 0 (-1).
Proof.
  destruct (frame (init 0) (up_frame (1 # 4))) as [g'|] eqn:H.
  - exists g'. split; [reflexivity|].
    exact (left_paddle_obeys_keys (init 0) g' (up_frame (1 # 4))
             (reachable_init 0) H).
  - exfalso. vm_compute in H. discriminate H.
Defined.
